(** * CMap: a chained hash table with injected hash, equality and release hooks

    A shallow embedding of [src/src/map.c] (API in [src/include/map.h]) and
    the properties of its operations.

    Representation choices, all read off the C source:
    - [void*] and [size_t] values are naturals of type [N]; [NULL] is [0] and
      [size_t] arithmetic wraps modulo [2^64] where the code can overflow
      ([map->size++], [map->size--]);
    - a bucket chain ([MapEntry] cells linked through [next]) is the list of
      its cells from the head on, and [map->buckets] is the list of chains;
    - a [Map*] argument is an [option Map]: [None] is the null reference, and
      each operation returns the struct as it is after the call;
    - the outside world (whatever the injected release hooks act upon, and
      the C allocator) is a state [W] threaded through the calls;
    - the injected hash and comparison are functions of the key alone: they
      are deterministic and do not depend on the world. *)

From Stdlib Require Import NArith ZArith Lia.
From Stdlib Require Strings.Byte Strings.String.
From stdpp Require Import base list.
Import Stdlib.Strings.String.StringSyntax.

Local Open Scope N_scope.

(** ** Data model *)

Definition ptr := N.
Definition NULL : ptr := 0.

(** [size_t] is taken to be 64 bits wide. *)
Definition SIZE_MODULUS : N := 18446744073709551616.
Definition size_t_inc (n : N) : N := (n + 1) mod SIZE_MODULUS.
Definition size_t_dec (n : N) : N := (n + (SIZE_MODULUS - 1)) mod SIZE_MODULUS.
Definition to_size_t (n : N) : N := n mod SIZE_MODULUS.

(** [struct MapEntry]; the [next] link is the tail of the chain. *)
Record MapEntry := { key : ptr; value : ptr }.

Definition MapHash := ptr -> N.
Definition MapCompare := ptr -> ptr -> Z.

(** The three kinds of heap block the library asks the C allocator for. *)
Inductive block :=
| MapBlock                  (* malloc(sizeof(Map)) *)
| BucketsBlock (n : N)      (* calloc(n, sizeof(MapEntry* )) *)
| EntryBlock.               (* malloc(sizeof(MapEntry)) *)

(** The C allocator as seen by the library: [alloc] may fail ([None], the
    world is then as before), [release] is [free]. *)
Class Allocator (W : Type) := {
  alloc : block -> W -> option W;
  release : block -> W -> W
}.

Section CMap.
Context {W : Type} `{Allocator W}.

(** A release hook is a side effect on the world. *)
Definition MapFree := ptr -> W -> W.

Record Map := {
  buckets : list (list MapEntry);
  capacity : N;
  size : N;
  hash : MapHash;
  compare : MapCompare;
  freeKey : MapFree;
  freeValue : MapFree
}.

Definition noFree : MapFree := fun _ w => w.

(** [map->buckets[i]] and [map->buckets[i] = c]. *)
Definition bucket (m : Map) (i : N) : list MapEntry := buckets m !!! N.to_nat i.

Definition set_bucket (m : Map) (i : N) (c : list MapEntry) : Map :=
  {| buckets := <[N.to_nat i := c]> (buckets m);
     capacity := capacity m; size := size m;
     hash := hash m; compare := compare m;
     freeKey := freeKey m; freeValue := freeValue m |}.

Definition set_size (m : Map) (n : N) : Map :=
  {| buckets := buckets m;
     capacity := capacity m; size := n;
     hash := hash m; compare := compare m;
     freeKey := freeKey m; freeValue := freeValue m |}.

(** ** Operations *)

Definition mapCreate (initialCapacity : N) (hash : MapHash) (compare : MapCompare)
    (freeKey freeValue : option MapFree) (w : W) : option Map * W :=
  if initialCapacity =? 0 then (None, w) else
  match alloc MapBlock w with
  | None => (None, w)
  | Some w1 =>
    match alloc (BucketsBlock initialCapacity) w1 with
    | None => (None, release MapBlock w1)
    | Some w2 =>
      (Some {| buckets := replicate (N.to_nat initialCapacity) [];
               capacity := initialCapacity;
               size := 0;
               hash := hash;
               compare := compare;
               freeKey := default noFree freeKey;
               freeValue := default noFree freeValue |}, w2)
    end
  end.

(** The scan of [mapPut]: [Some] when an entry with an equal key was found
    and overwritten (the [return true] inside the loop), [None] when the
    loop ran off the end of the chain. [map->freeValue] is never null after
    [mapCreate], so the guard around the call always passes. *)
Fixpoint put_loop (m : Map) (k v : ptr) (c : list MapEntry) (w : W)
    : option (list MapEntry * W) :=
  match c with
  | [] => None
  | entry :: next =>
    if (compare m (key entry) k =? 0)%Z
    then Some ({| key := key entry; value := v |} :: next,
               freeValue m (value entry) w)
    else match put_loop m k v next w with
         | Some (next', w') => Some (entry :: next', w')
         | None => None
         end
  end.

Definition mapPut (map : option Map) (k v : ptr) (w : W) : bool * option Map * W :=
  match map with
  | None => (false, None, w)
  | Some m =>
    if k =? NULL then (false, map, w) else
    let index := hash m k mod capacity m in
    match put_loop m k v (bucket m index) w with
    | Some (c, w') => (true, Some (set_bucket m index c), w')
    | None =>
      match alloc EntryBlock w with
      | None => (false, map, w)
      | Some w' =>
        let newEntry := {| key := k; value := v |} in
        (true,
         Some (set_size (set_bucket m index (newEntry :: bucket m index))
                        (size_t_inc (size m))),
         w')
      end
    end
  end.

Fixpoint get_loop (m : Map) (k : ptr) (c : list MapEntry) : ptr :=
  match c with
  | [] => NULL
  | entry :: next =>
    if (compare m (key entry) k =? 0)%Z then value entry
    else get_loop m k next
  end.

Definition mapGet (map : option Map) (k : ptr) : ptr :=
  match map with
  | None => NULL
  | Some m =>
    if k =? NULL then NULL else
    let index := hash m k mod capacity m in
    get_loop m k (bucket m index)
  end.

(** The scan of [mapRemove]: the entry unlinked and the chain without it
    (through [prev->next] or through the bucket head), or [None]. *)
Fixpoint remove_loop (m : Map) (k : ptr) (c : list MapEntry)
    : option (MapEntry * list MapEntry) :=
  match c with
  | [] => None
  | entry :: next =>
    if (compare m (key entry) k =? 0)%Z then Some (entry, next)
    else match remove_loop m k next with
         | Some (e, next') => Some (e, entry :: next')
         | None => None
         end
  end.

Definition mapRemove (map : option Map) (k : ptr) (w : W) : bool * option Map * W :=
  match map with
  | None => (false, None, w)
  | Some m =>
    if k =? NULL then (false, map, w) else
    let index := hash m k mod capacity m in
    match remove_loop m k (bucket m index) with
    | Some (entry, c) =>
      let w1 := freeKey m (key entry) w in
      let w2 := freeValue m (value entry) w1 in
      let w3 := release EntryBlock w2 in
      (true, Some (set_size (set_bucket m index c) (size_t_dec (size m))), w3)
    | None => (false, map, w)
    end
  end.

Definition mapContains (map : option Map) (k : ptr) : bool :=
  negb (mapGet map k =? NULL).

Definition mapSize (map : option Map) : N :=
  match map with
  | Some m => size m
  | None => 0
  end.

(** The inner loop of [mapClear]: every entry of a chain is released. *)
Fixpoint free_chain (m : Map) (c : list MapEntry) (w : W) : W :=
  match c with
  | [] => w
  | entry :: next =>
    free_chain m next
      (release EntryBlock (freeValue m (value entry) (freeKey m (key entry) w)))
  end.

Definition clear_step (m : Map) (st : list (list MapEntry) * W) (i : nat)
    : list (list MapEntry) * W :=
  (<[i := []]> (st.1), free_chain m (st.1 !!! i) (st.2)).

Definition mapClear (map : option Map) (w : W) : option Map * W :=
  match map with
  | None => (None, w)
  | Some m =>
    let st := foldl (clear_step m) (buckets m, w) (seq 0 (N.to_nat (capacity m))) in
    (Some {| buckets := st.1;
             capacity := capacity m; size := 0;
             hash := hash m; compare := compare m;
             freeKey := freeKey m; freeValue := freeValue m |}, st.2)
  end.

(** The inner loop of [mapResize]: each entry of an old chain, from the head
    on, is pushed on the front of its chain in the new array. *)
Fixpoint rehash_chain (m : Map) (newCapacity : N) (c : list MapEntry)
    (newBuckets : list (list MapEntry)) : list (list MapEntry) :=
  match c with
  | [] => newBuckets
  | entry :: next =>
    let newIndex := N.to_nat (hash m (key entry) mod newCapacity) in
    rehash_chain m newCapacity next
      (<[newIndex := entry :: newBuckets !!! newIndex]> newBuckets)
  end.

Definition mapResize (map : option Map) (newCapacity : N) (w : W)
    : bool * option Map * W :=
  match map with
  | None => (false, None, w)
  | Some m =>
    if (newCapacity =? 0) || (newCapacity <? size m) then (false, map, w) else
    match alloc (BucketsBlock newCapacity) w with
    | None => (false, map, w)
    | Some w1 =>
      let newBuckets :=
        foldl (fun nb i => rehash_chain m newCapacity (buckets m !!! i) nb)
              (replicate (N.to_nat newCapacity) [])
              (seq 0 (N.to_nat (capacity m))) in
      (true,
       Some {| buckets := newBuckets;
               capacity := newCapacity; size := size m;
               hash := hash m; compare := compare m;
               freeKey := freeKey m; freeValue := freeValue m |},
       release (BucketsBlock (capacity m)) w1)
    end
  end.

(** [mapDestroy]: the table is gone afterwards, only the world remains. *)
Definition mapDestroy (map : option Map) (w : W) : W :=
  match map with
  | None => w
  | Some m =>
    let w1 := (mapClear map w).2 in
    release MapBlock (release (BucketsBlock (capacity m)) w1)
  end.

End CMap.

(** ** Specification vocabulary *)

Section Vocabulary.
Context {W : Type}.
Implicit Types (m : @Map W) (k : ptr) (e : MapEntry).

(** All entries of the table, bucket after bucket. *)
Definition entries m : list MapEntry := concat (buckets m).

(** The bucket a key belongs to. *)
Definition index m k : N := hash m k mod capacity m.

(** Entry [e] holds key [k], per the injected equality. *)
Definition holds m k e : Prop := compare m (key e) k = 0%Z.

#[global] Instance holds_dec m k e : Decision (holds m k e) := Z.eq_dec _ _.

(** A live table: what [mapCreate] builds and every operation keeps. *)
Record live m : Prop := {
  live_capacity : 1 <= capacity m;
  live_buckets : length (buckets m) = N.to_nat (capacity m)
}.

Definition placed m : Prop :=
  forall i c e, buckets m !! i = Some c -> e ∈ c -> N.to_nat (index m (key e)) = i.

Definition unique_keys m : Prop :=
  forall k, (length (filter (holds m k) (entries m)) <= 1)%nat.

Definition counted m : Prop :=
  size m = to_size_t (N.of_nat (length (entries m))).

Record Inv m : Prop := {
  inv_live : live m;
  inv_placed : placed m;
  inv_unique : unique_keys m;
  inv_counted : counted m
}.

(** The contract on the injected functions: [compare] returning 0 is an
    equivalence on keys, and equal keys hash identically. *)
Record key_contract (h : MapHash) (cmp : MapCompare) : Prop := {
  cmp_refl : forall a, cmp a a = 0%Z;
  cmp_sym : forall a b, cmp a b = 0%Z -> cmp b a = 0%Z;
  cmp_trans : forall a b c, cmp a b = 0%Z -> cmp b c = 0%Z -> cmp a c = 0%Z;
  hash_consistent : forall a b, cmp a b = 0%Z -> h a = h b
}.

(** The entries in the buckets before and after the bucket of [k]. *)
Definition before m k : list MapEntry :=
  concat (take (N.to_nat (index m k)) (buckets m)).
Definition after m k : list MapEntry :=
  concat (drop (S (N.to_nat (index m k))) (buckets m)).

(** Every chain of an array of [n] buckets holds only keys hashing to it. *)
Definition placed_in (h : MapHash) (n : N) (bs : list (list MapEntry)) : Prop :=
  forall i c e, bs !! i = Some c -> e ∈ c -> N.to_nat (h (key e) mod n) = i.

(** Equal keys hash identically. *)
Definition consistent m : Prop :=
  forall a b, compare m a b = 0%Z -> hash m a = hash m b.

(** The injected functions are those of [m]. *)
Definition same_functions m m' : Prop :=
  hash m' = hash m /\ compare m' = compare m /\
  freeKey m' = freeKey m /\ freeValue m' = freeValue m.

End Vocabulary.

(** ** What each mutating call does *)

Section Outcomes.
Context {W : Type} `{Allocator W}.
Implicit Types (m : @Map W) (k v : ptr) (e : MapEntry) (c : list MapEntry) (w : W).

(** The four ways [mapPut] ends on a live reference. *)
Inductive put_outcome m k v w : bool * option Map * W -> Prop :=
| put_null_key :
    k = NULL -> put_outcome m k v w (false, Some m, w)
| put_overwrite c1 e c2 :
    k <> NULL ->
    bucket m (index m k) = c1 ++ e :: c2 ->
    Forall (fun x => ~ holds m k x) c1 -> holds m k e ->
    put_outcome m k v w
      (true,
       Some (set_bucket m (index m k) (c1 ++ {| key := key e; value := v |} :: c2)),
       freeValue m (value e) w)
| put_no_memory :
    k <> NULL ->
    Forall (fun x => ~ holds m k x) (bucket m (index m k)) ->
    alloc EntryBlock w = None ->
    put_outcome m k v w (false, Some m, w)
| put_fresh w' :
    k <> NULL ->
    Forall (fun x => ~ holds m k x) (bucket m (index m k)) ->
    alloc EntryBlock w = Some w' ->
    put_outcome m k v w
      (true,
       Some (set_size
               (set_bucket m (index m k)
                  ({| key := k; value := v |} :: bucket m (index m k)))
               (size_t_inc (size m))),
       w').

(** The three ways [mapRemove] ends on a live reference. *)
Inductive remove_outcome m k w : bool * option Map * W -> Prop :=
| remove_null_key :
    k = NULL -> remove_outcome m k w (false, Some m, w)
| remove_absent :
    k <> NULL ->
    Forall (fun x => ~ holds m k x) (bucket m (index m k)) ->
    remove_outcome m k w (false, Some m, w)
| remove_found c1 e c2 :
    k <> NULL ->
    bucket m (index m k) = c1 ++ e :: c2 ->
    Forall (fun x => ~ holds m k x) c1 -> holds m k e ->
    remove_outcome m k w
      (true,
       Some (set_size (set_bucket m (index m k) (c1 ++ c2)) (size_t_dec (size m))),
       release EntryBlock (freeValue m (value e) (freeKey m (key e) w))).

End Outcomes.

(** ** Call sequences and reachable tables *)

Inductive call :=
| Put (k v : ptr)
| Get (k : ptr)
| Contains (k : ptr)
| Remove (k : ptr)
| Size
| Clear
| Resize (newCapacity : N).

Section Calls.
Context {W : Type} `{Allocator W}.

(** The table and the world after one API call; the queries change neither. *)
Definition run (c : call) (map : option Map) (w : W) : option Map * W :=
  match c with
  | Put k v => let r := mapPut map k v w in (r.1.2, r.2)
  | Remove k => let r := mapRemove map k w in (r.1.2, r.2)
  | Resize n => let r := mapResize map n w in (r.1.2, r.2)
  | Clear => mapClear map w
  | Get _ | Contains _ | Size => (map, w)
  end.

Fixpoint run_all (cs : list call) (map : option Map) (w : W) : option Map * W :=
  match cs with
  | [] => (map, w)
  | c :: rest => let r := run c map w in run_all rest (r.1) (r.2)
  end.

(** Tables a client can hold: built by [mapCreate], then driven through the
    API. The client may change the world between two calls. *)
Inductive reachable : Map -> Prop :=
| reach_create n h cmp fk fv w m w' :
    mapCreate n h cmp fk fv w = (Some m, w') -> reachable m
| reach_call m c w m' w' :
    reachable m -> run c (Some m) w = (Some m', w') -> reachable m'.

(** A sequence of [mapPut] calls, with the result of each. *)
Fixpoint put_all (calls : list (ptr * ptr)) (map : option Map) (w : W)
    : list bool * option Map * W :=
  match calls with
  | [] => ([], map, w)
  | kv :: rest =>
    let r := mapPut map (kv.1) (kv.2) w in
    let rs := put_all rest (r.1.2) (r.2) in
    (r.1.1 :: rs.1.1, rs.1.2, rs.2)
  end.

End Calls.

(** The calls of a sequence that reported success. *)
Fixpoint accepted (calls : list (ptr * ptr)) (oks : list bool) : list (ptr * ptr) :=
  match calls, oks with
  | kv :: calls', true :: oks' => kv :: accepted calls' oks'
  | _ :: calls', false :: oks' => accepted calls' oks'
  | _, _ => []
  end.

(** The value of the latest call whose key equals [k]. *)
Fixpoint last_put (cmp : MapCompare) (k : ptr) (calls : list (ptr * ptr)) : option ptr :=
  match calls with
  | [] => None
  | kv :: rest =>
    match last_put cmp k rest with
    | Some v => Some v
    | None => if decide (cmp (kv.1) k = 0%Z) then Some (kv.2) else None
    end
  end.

(** The number of distinct keys of a list, up to the injected equality. *)
Fixpoint distinct_keys (cmp : MapCompare) (ks : list ptr) : nat :=
  match ks with
  | [] => 0
  | k :: rest =>
    if decide (Exists (fun k' => cmp k' k = 0%Z) rest)
    then distinct_keys cmp rest
    else S (distinct_keys cmp rest)
  end.

(** A call that neither stores under a key equal to [k], nor removes one,
    nor empties the table. *)
Definition leaves (cmp : MapCompare) (k : ptr) (c : call) : Prop :=
  match c with
  | Put k' _ | Remove k' => cmp k' k <> 0%Z
  | Clear => False
  | Get _ | Contains _ | Size | Resize _ => True
  end.

(** ** A concrete instantiation

    Keys compared by address and hashed to their address; the world is the
    log of what the allocator and the release hooks were asked to do, latest
    first, and allocation never fails. *)

Module Demo.

Inductive event :=
| Allocated (b : block)
| Released (b : block)
| KeyFreed (p : ptr)
| ValueFreed (p : ptr).

#[global] Instance log_allocator : Allocator (list event) := {|
  alloc b w := Some (Allocated b :: w);
  release b w := Released b :: w
|}.

Definition addrHash : MapHash := fun p => p.
Definition addrCompare : MapCompare := fun a b => (Z.of_N a - Z.of_N b)%Z.
Definition logKey : @MapFree (list event) := fun p w => KeyFreed p :: w.
Definition logValue : @MapFree (list event) := fun p w => ValueFreed p :: w.

(** An empty table of two buckets, and the table after storing under the
    keys 1, 3 (same bucket) and 4. *)
Definition fresh : Map :=
  {| buckets := [ []; [] ]; capacity := 2; size := 0;
     hash := addrHash; compare := addrCompare;
     freeKey := logKey; freeValue := logValue |}.

Definition three : Map :=
  {| buckets := [ [ {| key := 4; value := 40 |} ];
                  [ {| key := 3; value := 30 |}; {| key := 1; value := 10 |} ] ];
     capacity := 2; size := 3;
     hash := addrHash; compare := addrCompare;
     freeKey := logKey; freeValue := logValue |}.

(** The empty table after storing 10, and after storing [NULL], under key 1. *)
Definition one : Map :=
  {| buckets := [ []; [ {| key := 1; value := 10 |} ] ];
     capacity := 2; size := 1;
     hash := addrHash; compare := addrCompare;
     freeKey := logKey; freeValue := logValue |}.

Definition one_null : Map :=
  {| buckets := [ []; [ {| key := 1; value := NULL |} ] ];
     capacity := 2; size := 1;
     hash := addrHash; compare := addrCompare;
     freeKey := logKey; freeValue := logValue |}.

(** The data of a table reference, without the injected functions. *)
Definition view {W} (map : option (@Map W))
    : option (list (list MapEntry) * N * N) :=
  match map with
  | Some m => Some (buckets m, capacity m, size m)
  | None => None
  end.

End Demo.

(** An allocator with a budget of blocks, to exercise the failure paths. *)
Module Budget.

#[global] Instance budget_allocator : Allocator nat := {|
  alloc _ n := match n with O => None | S n' => Some n' end;
  release _ n := S n
|}.

(** A table of one bucket holding key 7, with hooks that do nothing. *)
Definition seven : @Map nat :=
  {| buckets := [ [ {| key := 7; value := 70 |} ] ]; capacity := 1; size := 1;
     hash := Demo.addrHash; compare := Demo.addrCompare;
     freeKey := noFree; freeValue := noFree |}.

End Budget.

(** ** The string functions and the demonstration program

    [stringHash] and [stringCompare] of [src/src/map.c] (and their copies
    in [src/examples/basic.c]) read the characters a key points to. Memory
    is read through [mem], which gives the bytes stored from an address on;
    a string ends at its first zero byte, and the bytes past the end of the
    list read as zero. The signedness of plain [char] is left open. *)

Section Strings.
Variable char_is_signed : bool.
Variable mem : ptr -> list Byte.byte.

(** [c = *str]: a [char] read into an [int]. *)
Definition char_to_int (b : Byte.byte) : Z :=
  let n := Z.of_N (Byte.to_N b) in
  if char_is_signed && (128 <=? n)%Z then (n - 256)%Z else n.

(** An [int] converted to [size_t], and the wrapping [size_t] operators. *)
Definition int_to_size_t (c : Z) : N := Z.to_N (c mod Z.of_N SIZE_MODULUS).
Definition size_t_add (a b : N) : N := (a + b) mod SIZE_MODULUS.
Definition size_t_shl (a s : N) : N := N.shiftl a s mod SIZE_MODULUS.

Fixpoint stringHash_loop (str : list Byte.byte) (hash : N) : N :=
  match str with
  | [] => hash
  | b :: rest =>
    let c := char_to_int b in
    if (c =? 0)%Z then hash
    else stringHash_loop rest
           (size_t_add (size_t_add (size_t_shl hash 5) hash) (int_to_size_t c))
  end.

Definition stringHash (key : ptr) : N := stringHash_loop (mem key) 5381.

(** [strcmp] of the C library. The C standard fixes that the result is 0
    when the two strings have the same characters up to the terminator, and
    otherwise only its sign: that of the difference of the first two
    characters that differ, read as [unsigned char]. The value returned
    here for strings that differ is that difference itself, as the byte by
    byte implementations return it; the table only tests the result of a
    comparison against 0, and nothing proved below depends on more than
    that. *)
Fixpoint strcmp (s1 s2 : list Byte.byte) : Z :=
  match s1, s2 with
  | [], [] => 0
  | [], b :: _ => (- Z.of_N (Byte.to_N b))%Z
  | a :: _, [] => Z.of_N (Byte.to_N a)
  | a :: rest1, b :: rest2 =>
    if Byte.eqb a b
    then (if Byte.eqb a Byte.x00 then 0%Z else strcmp rest1 rest2)
    else (Z.of_N (Byte.to_N a) - Z.of_N (Byte.to_N b))%Z
  end.

Definition stringCompare (key1 key2 : ptr) : Z := strcmp (mem key1) (mem key2).

(** The characters of a string, up to its terminator. *)
Fixpoint c_string (s : list Byte.byte) : list Byte.byte :=
  match s with
  | [] => []
  | b :: rest => if Byte.eqb b Byte.x00 then [] else b :: c_string rest
  end.

Context {W : Type} `{Allocator W}.

(** [free] of the C library, used as the release hook of string maps. *)
Variable free : @MapFree W.

Definition mapCreateStringMap (initialCapacity : N) (w : W) : option Map * W :=
  mapCreate initialCapacity stringHash stringCompare (Some free) (Some free) w.

End Strings.

(** [main] of [src/examples/basic.c]. Its [stringHash] and
    [stringCompare] are copies of those of [map.c]. Standard output is part
    of the world: [printf] is given its format (as the source writes it,
    escapes not expanded) and its arguments. The
    string literals of [main] are named by their addresses, one per
    occurrence in the source (a compiler may or may not merge them). *)

Section Program.
Variable char_is_signed : bool.
Variable mem : ptr -> list Byte.byte.
Context {W : Type} `{Allocator W}.
Variable printf : String.string -> list N -> W -> W.
Variables key1_put value1 key2_put value2 key1_get key2_contains key1_remove : ptr.

(** A string literal with the given text is stored at a (non-null) address. *)
Definition literal (p : ptr) (text : String.string) : Prop :=
  p <> NULL /\ c_string (mem p) = String.list_byte_of_string text.

#[local] Open Scope string_scope.

Definition main (w : W) : Z * W :=
  let '(map, w) :=
    mapCreate 10 (stringHash char_is_signed mem) (stringCompare mem) None None w in
  match map with
  | None => ((-1)%Z, printf "Failed to create map\n" [] w)
  | Some _ =>
    let '(ok, map, w) := mapPut map key1_put value1 w in
    if negb ok
    then ((-1)%Z, mapDestroy map (printf "Failed to put key1\n" [] w))
    else
    let '(ok, map, w) := mapPut map key2_put value2 w in
    if negb ok
    then ((-1)%Z, mapDestroy map (printf "Failed to put key2\n" [] w))
    else
    let value := mapGet map key1_get in
    let w := if negb (value =? NULL)%N
             then printf "Got value for key1: %s\n" [value] w
             else printf "Key1 not found\n" [] w in
    let w := if mapContains map key2_contains
             then printf "Map contains key2\n" [] w
             else w in
    let '(ok, map, w) := mapRemove map key1_remove w in
    let w := if ok then printf "Removed key1\n" [] w else w in
    let w := printf "Map size: %zu\n" [mapSize map] w in
    let '(map, w) := mapClear map w in
    let w := printf "Map cleared, size: %zu\n" [mapSize map] w in
    let w := mapDestroy map w in
    (0%Z, w)
  end.

End Program.

(** A memory holding the literals of [main] at the addresses 1 to 7, each
    occurrence at its own address and followed by its terminator (and, for
    one of them, by bytes that do not belong to the string); and a world
    that logs the allocator's work and what is printed. *)

Module Console.

#[local] Open Scope string_scope.

Definition terminated (text : String.string) : list Byte.byte :=
  (String.list_byte_of_string text ++ [Byte.x00])%list.

Definition memory (p : ptr) : list Byte.byte :=
  match p with
  | 1%N => terminated "key1"
  | 2%N => terminated "value1"
  | 3%N => terminated "key2"
  | 4%N => terminated "value2"
  | 5%N => (terminated "key1" ++ String.list_byte_of_string "junk")%list
  | 6%N => terminated "key2"
  | 7%N => terminated "key1"
  | _ => []
  end.

Definition world : Type := list Demo.event * list (String.string * list N).

#[global] Instance console_allocator : Allocator world := {|
  alloc b w := Some (Demo.Allocated b :: w.1, w.2);
  release b w := (Demo.Released b :: w.1, w.2)
|}.

Definition printf (fmt : String.string) (args : list N) (w : world) : world :=
  (w.1, (fmt, args) :: w.2).

Definition free : @MapFree world :=
  fun p w => (Demo.ValueFreed p :: w.1, w.2).

Definition start : world := ([], []).

End Console.

(** The blocks a log shows as allocated and not released yet. *)
Fixpoint outstanding (log : list Demo.event) : Z :=
  match log with
  | [] => 0
  | Demo.Allocated _ :: rest => outstanding rest + 1
  | Demo.Released _ :: rest => outstanding rest - 1
  | _ :: rest => outstanding rest
  end.

(** * Properties *)

(** ** Arithmetic of [size_t] *)

Lemma size_t_inc_wrap n : size_t_inc (to_size_t n) = to_size_t (n + 1).
Proof. unfold size_t_inc, to_size_t. by rewrite N.Div0.add_mod_idemp_l. Qed.

Lemma size_t_dec_wrap n : size_t_dec (to_size_t (n + 1)) = to_size_t n.
Proof.
  unfold size_t_dec, to_size_t. rewrite N.Div0.add_mod_idemp_l.
  replace (n + 1 + (SIZE_MODULUS - 1)) with (n + 1 * SIZE_MODULUS)
    by (unfold SIZE_MODULUS; lia).
  apply N.Div0.mod_add.
Qed.

Lemma to_size_t_small n : n < SIZE_MODULUS -> to_size_t n = n.
Proof. apply N.mod_small. Qed.

(** ** Lists of chains *)

Section ListFacts.
Context {A : Type}.
Implicit Types (l : list A) (bs : list (list A)).

Lemma concat_lookup_split bs i c :
  bs !! i = Some c ->
  concat bs = concat (take i bs) ++ c ++ concat (drop (S i) bs).
Proof.
  intros Hi. rewrite <- (take_drop_middle bs i c Hi) at 1.
  by rewrite concat_app, concat_cons.
Qed.

Lemma concat_insert_split bs i c :
  (i < length bs)%nat ->
  concat (<[i := c]> bs) = concat (take i bs) ++ c ++ concat (drop (S i) bs).
Proof.
  intros Hi. rewrite insert_take_drop by done.
  by rewrite concat_app, concat_cons.
Qed.

Lemma concat_replicate_nil n : concat (replicate n (@nil A)) = [].
Proof. induction n; simpl; auto. Qed.

Lemma elem_of_concat bs x : x ∈ concat bs <-> exists i c, bs !! i = Some c /\ x ∈ c.
Proof.
  induction bs as [|b bs IH]; simpl.
  - split; [by intros ?%elem_of_nil | by intros (i & c & Hi & _)].
  - rewrite elem_of_app, IH. split.
    + intros [Hx | (i & c & Hi & Hx)].
      * by exists 0%nat, b.
      * by exists (S i), c.
    + intros ([|i] & c & Hi & Hx); simpl in Hi.
      * left. by simplify_eq.
      * right. by exists i, c.
Qed.

Section Filter.
Context (P : A -> Prop) `{forall x, Decision (P x)}.

Lemma filter_none l : Forall (fun x => ~ P x) l -> filter P l = [].
Proof.
  induction 1 as [|x l Hx _ IH]; [done|].
  by rewrite filter_cons_False.
Qed.

Lemma filter_none_inv l : filter P l = [] -> Forall (fun x => ~ P x) l.
Proof.
  intros Hnil. apply Forall_forall. intros x Hx HP.
  assert (x ∈ filter P l) as Hin by (by apply list_elem_of_filter).
  rewrite Hnil in Hin. by apply elem_of_nil in Hin.
Qed.

Lemma filter_single l x :
  (length (filter P l) <= 1)%nat -> x ∈ l -> P x -> filter P l = [x].
Proof.
  intros Hlen Hx HP.
  assert (x ∈ filter P l) as Hin by (by apply list_elem_of_filter).
  destruct (filter P l) as [|y [|z r]]; simpl in Hlen.
  - by apply elem_of_nil in Hin.
  - apply list_elem_of_singleton in Hin. by subst.
  - lia.
Qed.

(** The first element satisfying [P], if there is one. *)
Lemma first_split l :
  Forall (fun x => ~ P x) l \/
  exists l1 x l2, l = l1 ++ x :: l2 /\ Forall (fun y => ~ P y) l1 /\ P x.
Proof.
  induction l as [|y l IH]; [by left|].
  destruct (decide (P y)) as [Hy | Hy].
  - right. by exists [], y, l.
  - destruct IH as [Hl | (l1 & x & l2 & -> & Hl1 & Hx)].
    + left. by constructor.
    + right. exists (y :: l1), x, l2. repeat split; auto.
Qed.

End Filter.

(** A loop over the indices of an array that reads the slot it visits. *)
Lemma foldl_seq_lookup `{!Inhabited A} {B} (f : B -> A -> B) l b :
  foldl (fun acc i => f acc (l !!! i)) b (seq 0 (length l)) = foldl f b l.
Proof.
  induction l as [|x l IH] using rev_ind; [done|].
  rewrite length_app, Nat.add_1_r.
  rewrite seq_S, !foldl_snoc. simpl.
  rewrite list_lookup_total_middle by done. f_equal.
  rewrite <- IH. clear IH.
  assert (forall n, (n <= length l)%nat ->
    foldl (fun acc i => f acc ((l ++ [x]) !!! i)) b (seq 0 n) =
    foldl (fun acc i => f acc (l !!! i)) b (seq 0 n)) as Hn.
  { induction n as [|n IHn]; [done|]. intros Hle.
    rewrite seq_S, !foldl_snoc, IHn by lia. simpl.
    by rewrite lookup_total_app_l by lia. }
  by apply Hn.
Qed.

End ListFacts.

(** ** The three scans of a chain *)

Section Theory.
Context {W : Type} `{Allocator W}.
Implicit Types (m : @Map W) (k v : ptr) (e : MapEntry) (c : list MapEntry) (w : W).

Lemma put_loop_miss m k v c w :
  Forall (fun e => ~ holds m k e) c -> put_loop m k v c w = None.
Proof.
  induction 1 as [|e c He _ IH]; simpl; [done|].
  destruct (Z.eqb_spec (compare m (key e) k) 0); [done|]. by rewrite IH.
Qed.

Lemma put_loop_hit m k v c1 e c2 w :
  Forall (fun x => ~ holds m k x) c1 -> holds m k e ->
  put_loop m k v (c1 ++ e :: c2) w =
    Some (c1 ++ {| key := key e; value := v |} :: c2, freeValue m (value e) w).
Proof.
  intros Hc1 He. induction Hc1 as [|x c1 Hx _ IH]; simpl.
  - by destruct (Z.eqb_spec (compare m (key e) k) 0).
  - destruct (Z.eqb_spec (compare m (key x) k) 0); [done|]. by rewrite IH.
Qed.

Lemma get_loop_miss m k c :
  Forall (fun e => ~ holds m k e) c -> get_loop m k c = NULL.
Proof.
  induction 1 as [|e c He _ IH]; simpl; [done|].
  by destruct (Z.eqb_spec (compare m (key e) k) 0).
Qed.

Lemma get_loop_hit m k c1 e c2 :
  Forall (fun x => ~ holds m k x) c1 -> holds m k e ->
  get_loop m k (c1 ++ e :: c2) = value e.
Proof.
  intros Hc1 He. induction Hc1 as [|x c1 Hx _ IH]; simpl.
  - by destruct (Z.eqb_spec (compare m (key e) k) 0).
  - by destruct (Z.eqb_spec (compare m (key x) k) 0).
Qed.

Lemma remove_loop_miss m k c :
  Forall (fun e => ~ holds m k e) c -> remove_loop m k c = None.
Proof.
  induction 1 as [|e c He _ IH]; simpl; [done|].
  destruct (Z.eqb_spec (compare m (key e) k) 0); [done|]. by rewrite IH.
Qed.

Lemma remove_loop_hit m k c1 e c2 :
  Forall (fun x => ~ holds m k x) c1 -> holds m k e ->
  remove_loop m k (c1 ++ e :: c2) = Some (e, c1 ++ c2).
Proof.
  intros Hc1 He. induction Hc1 as [|x c1 Hx _ IH]; simpl.
  - by destruct (Z.eqb_spec (compare m (key e) k) 0).
  - destruct (Z.eqb_spec (compare m (key x) k) 0); [done|]. by rewrite IH.
Qed.

(** What [mapGet] returns, in terms of the entries of the bucket. *)
Lemma get_loop_filter m k c :
  get_loop m k c = from_option value NULL (head (filter (holds m k) c)).
Proof.
  destruct (first_split (holds m k) c) as [Hc | (c1 & e & c2 & -> & Hc1 & He)].
  - by rewrite get_loop_miss, filter_none.
  - rewrite get_loop_hit, filter_app, filter_none, filter_cons_True by done.
    done.
Qed.

(** ** Buckets of a live table *)

Lemma index_lt m k : live m -> index m k < capacity m.
Proof. intros [Hcap _]. apply N.mod_lt. lia. Qed.

Lemma index_in_range m k : live m -> (N.to_nat (index m k) < length (buckets m))%nat.
Proof. intros Hm. pose proof (index_lt m k Hm). destruct Hm. lia. Qed.

Lemma bucket_lookup m k :
  live m -> buckets m !! N.to_nat (index m k) = Some (bucket m (index m k)).
Proof.
  intros Hm. apply list_lookup_lookup_total_lt. by apply index_in_range.
Qed.

Lemma entries_split m k :
  live m -> entries m = before m k ++ bucket m (index m k) ++ after m k.
Proof. intros Hm. apply concat_lookup_split. by apply bucket_lookup. Qed.

Lemma entries_set_bucket m k c :
  live m -> entries (set_bucket m (index m k) c) = before m k ++ c ++ after m k.
Proof. intros Hm. apply concat_insert_split. by apply index_in_range. Qed.

Lemma live_set_bucket m i c : live m -> live (set_bucket m i c).
Proof. intros [? ?]. split; simpl; [done|]. by rewrite length_insert. Qed.

Lemma live_set_size m n : live m -> live (set_size m n).
Proof. by intros [? ?]. Qed.

Lemma placed_set_bucket m i c :
  placed m -> Forall (fun e => index m (key e) = i) c -> placed (set_bucket m i c).
Proof.
  intros Hp Hc j c' e Hj He. simpl in Hj.
  destruct (decide (N.to_nat i = j)) as [<- | Hne].
  - destruct (decide (N.to_nat i < length (buckets m))%nat) as [Hlt | Hge].
    + rewrite list_lookup_insert_eq in Hj by done. simplify_eq.
      rewrite Forall_forall in Hc. change (index (set_bucket m i c') (key e))
        with (index m (key e)). by rewrite (Hc e He).
    + rewrite list_insert_ge in Hj by lia. by apply (Hp _ _ _ Hj He).
  - rewrite list_lookup_insert_ne in Hj by done. by apply (Hp _ _ _ Hj He).
Qed.

(** With a consistent hash, every entry holding [k] sits in [k]'s bucket. *)
Lemma placed_elsewhere m k j c e :
  placed m -> (forall a b, compare m a b = 0%Z -> hash m a = hash m b) ->
  buckets m !! j = Some c -> e ∈ c -> j <> N.to_nat (index m k) -> ~ holds m k e.
Proof.
  intros Hp Hh Hj He Hne Hk. apply Hne.
  rewrite <- (Hp _ _ _ Hj He). unfold index. by rewrite (Hh _ _ Hk).
Qed.

Lemma before_miss m k :
  placed m -> (forall a b, compare m a b = 0%Z -> hash m a = hash m b) ->
  Forall (fun e => ~ holds m k e) (before m k).
Proof.
  intros Hp Hh. apply Forall_forall. intros e He.
  apply elem_of_concat in He as (j & c & Hj & He).
  apply lookup_take_Some in Hj as [Hj Hlt].
  eapply placed_elsewhere; eauto. lia.
Qed.

Lemma after_miss m k :
  placed m -> (forall a b, compare m a b = 0%Z -> hash m a = hash m b) ->
  Forall (fun e => ~ holds m k e) (after m k).
Proof.
  intros Hp Hh. apply Forall_forall. intros e He.
  apply elem_of_concat in He as (j & c & Hj & He).
  rewrite lookup_drop in Hj.
  eapply placed_elsewhere; eauto. lia.
Qed.

(** The entries holding [k] are those of [k]'s bucket that hold it. *)
Lemma filter_entries m k :
  live m -> placed m ->
  (forall a b, compare m a b = 0%Z -> hash m a = hash m b) ->
  filter (holds m k) (entries m) = filter (holds m k) (bucket m (index m k)).
Proof.
  intros Hm Hp Hh. rewrite (entries_split m k Hm), !filter_app.
  rewrite (filter_none _ _ (before_miss m k Hp Hh)).
  rewrite (filter_none _ _ (after_miss m k Hp Hh)).
  by rewrite app_nil_r.
Qed.

Lemma mapGet_entries m k :
  live m -> placed m ->
  (forall a b, compare m a b = 0%Z -> hash m a = hash m b) ->
  k <> NULL ->
  mapGet (Some m) k = from_option value NULL (head (filter (holds m k) (entries m))).
Proof.
  intros Hm Hp Hh Hk. unfold mapGet.
  destruct (N.eqb_spec k NULL); [done|].
  by rewrite get_loop_filter, filter_entries.
Qed.

End Theory.

(** ** The outcome of [mapPut] and [mapRemove] *)

Section OutcomeFacts.
Context {W : Type} `{Allocator W}.
Implicit Types (m : @Map W) (k v : ptr) (e : MapEntry) (c : list MapEntry) (w : W).

Lemma mapPut_outcome m k v w : put_outcome m k v w (mapPut (Some m) k v w).
Proof.
  unfold mapPut. destruct (N.eqb_spec k NULL) as [Hk | Hk].
  { by constructor. }
  fold (index m k).
  destruct (first_split (holds m k) (bucket m (index m k)))
    as [Hc | (c1 & e & c2 & Hb & Hc1 & He)].
  - rewrite put_loop_miss by done.
    destruct (alloc EntryBlock w) as [w'|] eqn:Ha.
    + by apply put_fresh.
    + by apply put_no_memory.
  - rewrite Hb at 1. rewrite put_loop_hit by done.
    by eapply put_overwrite.
Qed.

Lemma mapRemove_outcome m k w : remove_outcome m k w (mapRemove (Some m) k w).
Proof.
  unfold mapRemove. destruct (N.eqb_spec k NULL) as [Hk | Hk].
  { by constructor. }
  fold (index m k).
  destruct (first_split (holds m k) (bucket m (index m k)))
    as [Hc | (c1 & e & c2 & Hb & Hc1 & He)].
  - rewrite remove_loop_miss by done. by apply remove_absent.
  - rewrite Hb at 1. rewrite remove_loop_hit by done.
    by eapply remove_found.
Qed.

End OutcomeFacts.

(** ** The invariant and the calls that keep it *)

Section Invariant.
Context {W : Type} `{Allocator W}.
Implicit Types (m : @Map W) (k v : ptr) (e : MapEntry) (c : list MapEntry) (w : W).

Lemma same_functions_refl m : same_functions m m.
Proof. by repeat split. Qed.

Lemma same_functions_trans m1 m2 m3 :
  same_functions m1 m2 -> same_functions m2 m3 -> same_functions m1 m3.
Proof. intros (?&?&?&?) (?&?&?&?). repeat split; congruence. Qed.

Lemma key_contract_same m m' :
  same_functions m m' ->
  key_contract (hash m) (compare m) -> key_contract (hash m') (compare m').
Proof. intros (-> & -> & _). done. Qed.

Lemma filter_holds_same m m' k (l : list MapEntry) :
  compare m' = compare m -> filter (holds m' k) l = filter (holds m k) l.
Proof. intros Hc. apply list_filter_iff. intros e. unfold holds. by rewrite Hc. Qed.

(** Entries holding [k] are counted alike in two lists with the same keys. *)
Lemma filter_holds_keys m k (l l' : list MapEntry) :
  key <$> l = key <$> l' ->
  length (filter (holds m k) l) = length (filter (holds m k) l').
Proof.
  revert l'. induction l as [|x l IH]; intros [|y l'] Hkeys; simplify_eq/=; [done|].
  assert (holds m k x <-> holds m k y) as Hxy by (unfold holds; by rewrite H0).
  destruct (decide (holds m k x)) as [Hx | Hx].
  - rewrite !filter_cons_True by tauto. simpl. by rewrite (IH l').
  - rewrite !filter_cons_False by tauto. by apply IH.
Qed.

Lemma bucket_placed m k x :
  live m -> placed m -> x ∈ bucket m (index m k) -> index m (key x) = index m k.
Proof.
  intros Hm Hp Hx. apply N2Nat.inj.
  by apply (Hp _ _ _ (bucket_lookup m k Hm) Hx).
Qed.

(** No entry of [k]'s bucket holds [k]: then no entry of the table does. *)
Lemma absent_everywhere m k :
  live m -> placed m ->
  (forall a b, compare m a b = 0%Z -> hash m a = hash m b) ->
  Forall (fun x => ~ holds m k x) (bucket m (index m k)) ->
  Forall (fun x => ~ holds m k x) (entries m).
Proof.
  intros Hm Hp Hh Hb. rewrite (entries_split m k Hm).
  repeat apply Forall_app_2; auto using before_miss, after_miss.
Qed.

(** The placement of entries needs no assumption on the injected functions. *)
Lemma placed_put_overwrite m k v c1 e c2 :
  live m -> placed m ->
  bucket m (index m k) = c1 ++ e :: c2 ->
  placed (set_bucket m (index m k) (c1 ++ {| key := key e; value := v |} :: c2)).
Proof.
  intros Hm Hp Hb. apply placed_set_bucket; [done|].
  apply Forall_forall. intros x Hx.
  assert (x ∈ bucket m (index m k) \/ key x = key e) as [Hin | Hk].
  { rewrite Hb. apply elem_of_app in Hx as [Hx | Hx].
    - left. apply elem_of_app. by left.
    - apply elem_of_cons in Hx as [-> | Hx]; [by right|].
      left. apply elem_of_app. right. apply elem_of_cons. by right. }
  - by apply bucket_placed.
  - rewrite Hk. apply bucket_placed; auto. rewrite Hb.
    apply elem_of_app. right. apply elem_of_cons. by left.
Qed.

Lemma placed_put_fresh m k v n :
  live m -> placed m ->
  placed (set_size
            (set_bucket m (index m k) ({| key := k; value := v |} :: bucket m (index m k)))
            n).
Proof.
  intros Hm Hp. apply (placed_set_bucket m); [done|]. constructor; [done|].
  apply Forall_forall. intros x Hx. by apply bucket_placed.
Qed.

Lemma placed_remove_found m k c1 e c2 n :
  live m -> placed m ->
  bucket m (index m k) = c1 ++ e :: c2 ->
  placed (set_size (set_bucket m (index m k) (c1 ++ c2)) n).
Proof.
  intros Hm Hp Hb. apply (placed_set_bucket m); [done|].
  apply Forall_forall. intros x Hx.
  apply bucket_placed; auto. rewrite Hb.
  apply elem_of_app in Hx as [Hx | Hx]; apply elem_of_app; [by left|].
  right. apply elem_of_cons. by right.
Qed.

Lemma shape_put m k v w r :
  live m -> placed m -> put_outcome m k v w r ->
  exists m', r.1.2 = Some m' /\ live m' /\ placed m' /\ same_functions m m'.
Proof.
  intros Hm Hp [Hk | c1 e c2 Hk Hb Hc1 He | Hk Hb Ha | w' Hk Hb Ha]; simpl.
  - exists m. auto using same_functions_refl.
  - eexists. split; [done|]. split; [by apply live_set_bucket|].
    split; [by apply placed_put_overwrite|]. by repeat split.
  - exists m. auto using same_functions_refl.
  - eexists. split; [done|]. split; [by apply live_set_size, live_set_bucket|].
    split; [by apply placed_put_fresh|]. by repeat split.
Qed.

Lemma shape_remove m k w r :
  live m -> placed m -> remove_outcome m k w r ->
  exists m', r.1.2 = Some m' /\ live m' /\ placed m' /\ same_functions m m'.
Proof.
  intros Hm Hp [Hk | Hk Hb | c1 e c2 Hk Hb Hc1 He]; simpl.
  - exists m. auto using same_functions_refl.
  - exists m. auto using same_functions_refl.
  - eexists. split; [done|]. split; [by apply live_set_size, live_set_bucket|].
    split; [by eapply placed_remove_found|]. by repeat split.
Qed.

Lemma Inv_create n h cmp fk fv w m w' :
  mapCreate n h cmp fk fv w = (Some m, w') ->
  Inv m /\ entries m = [] /\ capacity m = n /\ size m = 0 /\
  hash m = h /\ compare m = cmp /\
  freeKey m = default noFree fk /\ freeValue m = default noFree fv.
Proof.
  unfold mapCreate. destruct (N.eqb_spec n 0) as [|Hn]; [done|].
  destruct (alloc MapBlock w) as [w1|]; [|done].
  destruct (alloc (BucketsBlock n) w1) as [w2|]; [|done].
  intros [= <- <-].
  assert (concat (replicate (N.to_nat n) (@nil MapEntry)) = []) as Hnil
    by apply concat_replicate_nil.
  repeat split; simpl; try done.
  - lia.
  - by rewrite length_replicate.
  - intros i c e [-> _]%lookup_replicate He. by apply elem_of_nil in He.
  - intros k. unfold entries. simpl. rewrite Hnil. simpl. lia.
  - unfold counted, entries. simpl. by rewrite Hnil.
Qed.

Lemma Inv_put_overwrite m k v c1 e c2 :
  Inv m ->
  bucket m (index m k) = c1 ++ e :: c2 ->
  Inv (set_bucket m (index m k) (c1 ++ {| key := key e; value := v |} :: c2)).
Proof.
  intros [Hm Hp Hu Hc] Hb.
  set (m' := set_bucket m (index m k) _).
  assert (key <$> entries m' = key <$> entries m) as Hkeys.
  { unfold m'. rewrite entries_set_bucket, (entries_split m k), Hb by done.
    by rewrite !fmap_app, !fmap_cons. }
  split.
  - by apply live_set_bucket.
  - by apply placed_put_overwrite.
  - intros k'. change (length (filter (holds m k') (entries m')) <= 1)%nat.
    rewrite (filter_holds_keys m k' _ _ Hkeys). apply Hu.
  - unfold counted. change (size m') with (size m).
    rewrite Hc. f_equal. f_equal.
    by rewrite <- (length_fmap key (entries m)), <- Hkeys, length_fmap.
Qed.

Lemma Inv_put_fresh m k v :
  Inv m -> key_contract (hash m) (compare m) ->
  Forall (fun x => ~ holds m k x) (bucket m (index m k)) ->
  Inv (set_size
         (set_bucket m (index m k) ({| key := k; value := v |} :: bucket m (index m k)))
         (size_t_inc (size m))).
Proof.
  intros [Hm Hp Hu Hc] [Hrefl Hsym Htrans Hh] Hb.
  set (new := {| key := k; value := v |}).
  set (m1 := set_bucket m (index m k) (new :: bucket m (index m k))).
  assert (entries m1 ≡ₚ new :: entries m) as Hperm.
  { unfold m1. rewrite entries_set_bucket, (entries_split m k) by done.
    simpl. symmetry. apply Permutation_middle. }
  split.
  - by apply live_set_size, live_set_bucket.
  - by apply placed_put_fresh.
  - intros k'. change (length (filter (holds m k') (entries m1)) <= 1)%nat.
    rewrite Hperm. destruct (decide (holds m k' new)) as [Hnew | Hnew].
    + rewrite filter_cons_True by done. simpl.
      rewrite filter_none; [done|].
      pose proof (absent_everywhere m k Hm Hp Hh Hb) as Habs.
      rewrite Forall_forall in Habs |- *. intros x Hx Hk'.
      apply (Habs x Hx). unfold holds in *. simpl in Hnew. eauto.
    + rewrite filter_cons_False by done. apply Hu.
  - unfold counted. change (size_t_inc (size m) =
      to_size_t (N.of_nat (length (entries m1)))).
    rewrite Hperm. simpl. rewrite Hc, size_t_inc_wrap. f_equal. lia.
Qed.

Lemma Inv_put m k v w r :
  Inv m -> key_contract (hash m) (compare m) ->
  put_outcome m k v w r ->
  exists m', r.1.2 = Some m' /\ Inv m' /\ same_functions m m'.
Proof.
  intros Hinv Hkc [Hk | c1 e c2 Hk Hb Hc1 He | Hk Hb Ha | w' Hk Hb Ha]; simpl.
  - exists m. auto using same_functions_refl.
  - eexists. split; [done|]. split; [by apply Inv_put_overwrite|].
    by repeat split.
  - exists m. auto using same_functions_refl.
  - eexists. split; [done|]. split; [by apply Inv_put_fresh|].
    by repeat split.
Qed.

Lemma Inv_remove_found m k c1 e c2 :
  Inv m ->
  bucket m (index m k) = c1 ++ e :: c2 ->
  Inv (set_size (set_bucket m (index m k) (c1 ++ c2)) (size_t_dec (size m))).
Proof.
  intros [Hm Hp Hu Hc] Hb.
  set (m1 := set_bucket m (index m k) (c1 ++ c2)).
  assert (entries m ≡ₚ e :: entries m1) as Hperm.
  { unfold m1. rewrite entries_set_bucket, (entries_split m k), Hb by done.
    rewrite <- !app_assoc. simpl.
    rewrite (app_assoc (before m k) c1). by rewrite <- Permutation_middle, <- app_assoc. }
  split.
  - by apply live_set_size, live_set_bucket.
  - by eapply placed_remove_found.
  - intros k'. change (length (filter (holds m k') (entries m1)) <= 1)%nat.
    specialize (Hu k'). rewrite Hperm in Hu.
    destruct (decide (holds m k' e)).
    + rewrite filter_cons_True in Hu by done. simpl in Hu. lia.
    + by rewrite filter_cons_False in Hu.
  - unfold counted. change (size_t_dec (size m) =
      to_size_t (N.of_nat (length (entries m1)))).
    rewrite Hc, Hperm. simpl length.
    rewrite Nat2N.inj_succ, <- N.add_1_r. apply size_t_dec_wrap.
Qed.

Lemma Inv_remove m k w r :
  Inv m -> remove_outcome m k w r ->
  exists m', r.1.2 = Some m' /\ Inv m' /\ same_functions m m'.
Proof.
  intros Hinv [Hk | Hk Hb | c1 e c2 Hk Hb Hc1 He]; simpl.
  - exists m. auto using same_functions_refl.
  - exists m. auto using same_functions_refl.
  - eexists. split; [done|]. split; [by eapply Inv_remove_found|].
    by repeat split.
Qed.

(** [mapClear]: the loop over the buckets, then the table it leaves. *)
Lemma clear_loop m (bs : list (list MapEntry)) w n :
  (n <= length bs)%nat ->
  foldl (clear_step m) (bs, w) (seq 0 n) =
    (replicate n [] ++ drop n bs, foldl (fun w c => free_chain m c w) w (take n bs)).
Proof.
  induction n as [|n IH]; intros Hn.
  - done.
  - rewrite seq_S, foldl_snoc, IH by lia. unfold clear_step. simpl.
    destruct (lookup_lt_is_Some_2 bs n) as [c Hc]; [lia|].
    assert (length (replicate n (@nil MapEntry)) = n) as Hlen
      by apply length_replicate.
    f_equal.
    + rewrite insert_app_r_alt by lia. rewrite Hlen, Nat.sub_diag.
      rewrite (drop_S _ _ _ Hc). simpl.
      rewrite (cons_middle [] (replicate n [])), app_assoc.
      by rewrite <- replicate_S_end.
    + rewrite (take_S_r _ _ _ Hc), foldl_snoc. f_equal.
      rewrite lookup_total_app_r by lia. rewrite Hlen, Nat.sub_diag.
      rewrite (drop_S _ _ _ Hc). done.
Qed.

Lemma mapClear_live m w :
  live m ->
  mapClear (Some m) w =
    (Some {| buckets := replicate (N.to_nat (capacity m)) [];
             capacity := capacity m; size := 0;
             hash := hash m; compare := compare m;
             freeKey := freeKey m; freeValue := freeValue m |},
     foldl (fun w c => free_chain m c w) w (buckets m)).
Proof.
  intros [Hcap Hlen]. unfold mapClear.
  rewrite clear_loop by lia. simpl.
  rewrite <- Hlen, drop_all, take_ge, app_nil_r by lia. done.
Qed.

Lemma Inv_clear m w :
  live m ->
  exists m', (mapClear (Some m) w).1 = Some m' /\ Inv m' /\ same_functions m m' /\
    capacity m' = capacity m /\ size m' = 0 /\ entries m' = [].
Proof.
  intros Hm. rewrite mapClear_live by done. simpl. eexists. split; [done|].
  destruct Hm as [Hcap Hlen].
  assert (concat (replicate (N.to_nat (capacity m)) (@nil MapEntry)) = []) as Hnil
    by apply concat_replicate_nil.
  repeat split; simpl; try done.
  - by rewrite length_replicate.
  - intros i c e [-> _]%lookup_replicate He. by apply elem_of_nil in He.
  - intros k. unfold entries. simpl. rewrite Hnil. simpl. lia.
  - unfold counted, entries. simpl. by rewrite Hnil.
Qed.

(** [mapResize]: one chain rehashed, then all of them. *)
Lemma rehash_chain_spec m n c (nb : list (list MapEntry)) :
  1 <= n -> length nb = N.to_nat n -> placed_in (hash m) n nb ->
  length (rehash_chain m n c nb) = N.to_nat n /\
  placed_in (hash m) n (rehash_chain m n c nb) /\
  concat (rehash_chain m n c nb) ≡ₚ c ++ concat nb.
Proof.
  intros Hn. revert nb. induction c as [|e next IH]; intros nb Hlen Hp; [done|].
  simpl. set (i := N.to_nat (hash m (key e) mod n)).
  assert (i < length nb)%nat as Hi.
  { unfold i. pose proof (N.mod_lt (hash m (key e)) n). lia. }
  pose proof (list_lookup_lookup_total_lt nb i Hi) as Hlook.
  destruct (IH (<[i := e :: nb !!! i]> nb)) as (Hlen' & Hp' & Hperm).
  - by rewrite length_insert.
  - intros j c x Hj Hx. destruct (decide (i = j)) as [<- | Hne].
    + rewrite list_lookup_insert_eq in Hj by done. simplify_eq.
      apply elem_of_cons in Hx as [-> | Hx]; [done|]. by apply (Hp _ _ _ Hlook).
    + rewrite list_lookup_insert_ne in Hj by done. by apply (Hp _ _ _ Hj).
  - repeat split; [done..|]. rewrite Hperm.
    rewrite concat_insert_split by done.
    rewrite (concat_lookup_split nb i _ Hlook). simpl.
    rewrite <- !Permutation_middle. done.
Qed.

Lemma rehash_all_spec m n (bs nb : list (list MapEntry)) :
  1 <= n -> length nb = N.to_nat n -> placed_in (hash m) n nb ->
  let nb' := foldl (fun nb c => rehash_chain m n c nb) nb bs in
  length nb' = N.to_nat n /\ placed_in (hash m) n nb' /\
  concat nb' ≡ₚ concat bs ++ concat nb.
Proof.
  intros Hn. revert nb. induction bs as [|c bs IH]; intros nb Hlen Hp; [done|].
  simpl. destruct (rehash_chain_spec m n c nb Hn Hlen Hp) as (Hlen1 & Hp1 & Hperm1).
  destruct (IH _ Hlen1 Hp1) as (Hlen2 & Hp2 & Hperm2).
  repeat split; [done..|]. rewrite Hperm2, Hperm1.
  rewrite <- !app_assoc. apply Permutation_app_swap_app.
Qed.

Lemma resize_loop m n (nb : list (list MapEntry)) :
  foldl (fun nb i => rehash_chain m n (buckets m !!! i) nb) nb
        (seq 0 (length (buckets m))) =
  foldl (fun nb c => rehash_chain m n c nb) nb (buckets m).
Proof. apply (foldl_seq_lookup (fun nb c => rehash_chain m n c nb)). Qed.

Lemma mapResize_rejected m n w :
  n = 0 \/ n < size m -> mapResize (Some m) n w = (false, Some m, w).
Proof.
  intros Hn. unfold mapResize.
  destruct (N.eqb_spec n 0); [done|]. destruct (N.ltb_spec n (size m)); [done|lia].
Qed.

Lemma mapResize_failure m n w map' w' :
  mapResize (Some m) n w = (false, map', w') -> map' = Some m /\ w' = w.
Proof.
  unfold mapResize. destruct (_ || _); [by intros [= <- <-]|].
  destruct (alloc _ w); [done|]. by intros [= <- <-].
Qed.

Lemma shape_resize m n w map' w' :
  live m -> mapResize (Some m) n w = (true, map', w') ->
  exists m' w1, map' = Some m' /\ live m' /\ placed m' /\ same_functions m m' /\
    capacity m' = n /\ size m' = size m /\ entries m' ≡ₚ entries m /\
    1 <= n /\ size m <= n /\
    alloc (BucketsBlock n) w = Some w1 /\
    w' = release (BucketsBlock (capacity m)) w1.
Proof.
  intros [Hcap Hlen]. unfold mapResize.
  destruct (N.eqb_spec n 0) as [|Hn0]; [done|].
  destruct (N.ltb_spec n (size m)) as [|Hsz]; [done|]. simpl.
  destruct (alloc (BucketsBlock n) w) as [w1|] eqn:Ha; [|done].
  intros [= <- <-]. rewrite <- Hlen, resize_loop.
  destruct (rehash_all_spec m n (buckets m) (replicate (N.to_nat n) []))
    as (Hlen' & Hp' & Hperm).
  - lia.
  - by rewrite length_replicate.
  - intros i c e [-> _]%lookup_replicate He. by apply elem_of_nil in He.
  - rewrite concat_replicate_nil, app_nil_r in Hperm.
    eexists _, w1. split; [done|].
    split; [split; simpl; [lia|done]|].
    split; [done|]. repeat split; auto; lia.
Qed.

Lemma mapResize_success m n w map' w' :
  Inv m -> mapResize (Some m) n w = (true, map', w') ->
  exists m' w1, map' = Some m' /\ Inv m' /\ same_functions m m' /\
    capacity m' = n /\ size m' = size m /\ entries m' ≡ₚ entries m /\
    1 <= n /\ size m <= n /\
    alloc (BucketsBlock n) w = Some w1 /\
    w' = release (BucketsBlock (capacity m)) w1.
Proof.
  intros [Hm Hp Hu Hc] Hr.
  destruct (shape_resize m n w map' w' Hm Hr)
    as (m' & w1 & -> & Hm' & Hp' & Hsame & Hcap' & Hsz' & Hperm & Hrest).
  destruct Hrest as (Hn1 & Hn2 & Ha & ->).
  exists m', w1. split; [done|].
  split; [|split; [done|]; by repeat split].
  split; [done..| |].
  - intros k. rewrite (filter_holds_same m m') by apply Hsame.
    rewrite Hperm. apply Hu.
  - unfold counted. rewrite Hsz', Hperm. apply Hc.
Qed.

End Invariant.

(** ** What a call does to the entries holding a key *)

Section Lookups.
Context {W : Type} `{Allocator W}.
Implicit Types (m : @Map W) (k v : ptr) (e : MapEntry) (c : list MapEntry) (w : W).

Lemma filter_unique m k e :
  unique_keys m -> e ∈ entries m -> holds m k e ->
  filter (holds m k) (entries m) = [e].
Proof. intros Hu He Hk. by apply filter_single. Qed.

Lemma Permutation_short {A} (l l' : list A) :
  l ≡ₚ l' -> (length l <= 1)%nat -> l = l'.
Proof.
  intros Hperm Hlen. destruct l as [|x [|y l]]; simpl in Hlen; [| |lia].
  - by apply Permutation_nil_l in Hperm.
  - by apply Permutation_singleton_l in Hperm.
Qed.

Lemma mapPut_true m k v w m' w' :
  mapPut (Some m) k v w = (true, Some m', w') ->
  k <> NULL /\
  ((exists c1 e c2,
      bucket m (index m k) = c1 ++ e :: c2 /\
      Forall (fun x => ~ holds m k x) c1 /\ holds m k e /\
      m' = set_bucket m (index m k) (c1 ++ {| key := key e; value := v |} :: c2) /\
      w' = freeValue m (value e) w) \/
   (Forall (fun x => ~ holds m k x) (bucket m (index m k)) /\
    alloc EntryBlock w = Some w' /\
    m' = set_size
           (set_bucket m (index m k) ({| key := k; value := v |} :: bucket m (index m k)))
           (size_t_inc (size m)))).
Proof.
  intros Heq. pose proof (mapPut_outcome m k v w) as Ho. rewrite Heq in Ho.
  inversion Ho as [ | c1 e c2 Hk Hb Hc1 He | | w1 Hk Hb Ha ]; subst.
  - split; [done|]. left. by exists c1, e, c2.
  - split; [done|]. by right.
Qed.

Lemma mapPut_false m k v w map' w' :
  mapPut (Some m) k v w = (false, map', w') -> map' = Some m /\ w' = w.
Proof.
  intros Heq. pose proof (mapPut_outcome m k v w) as Ho. rewrite Heq in Ho.
  by inversion Ho.
Qed.

Lemma mapRemove_true m k w map' w' :
  mapRemove (Some m) k w = (true, map', w') ->
  k <> NULL /\
  exists c1 e c2,
    bucket m (index m k) = c1 ++ e :: c2 /\
    Forall (fun x => ~ holds m k x) c1 /\ holds m k e /\
    map' = Some (set_size (set_bucket m (index m k) (c1 ++ c2)) (size_t_dec (size m))) /\
    w' = release EntryBlock (freeValue m (value e) (freeKey m (key e) w)).
Proof.
  intros Heq. pose proof (mapRemove_outcome m k w) as Ho. rewrite Heq in Ho.
  inversion Ho as [ | | c1 e c2 Hk Hb Hc1 He ]; subst.
  split; [done|]. by exists c1, e, c2.
Qed.

Lemma mapRemove_false m k w map' w' :
  mapRemove (Some m) k w = (false, map', w') -> map' = Some m /\ w' = w.
Proof.
  intros Heq. pose proof (mapRemove_outcome m k w) as Ho. rewrite Heq in Ho.
  by inversion Ho.
Qed.

(** A successful [mapPut] leaves an entry holding the key, with the value. *)
Lemma put_stores m k v w m' w' :
  live m -> compare m k k = 0%Z ->
  mapPut (Some m) k v w = (true, Some m', w') ->
  exists e, e ∈ entries m' /\ holds m k e /\ value e = v.
Proof.
  intros Hm Hrefl Heq.
  destruct (mapPut_true _ _ _ _ _ _ Heq)
    as [Hk [(c1 & e & c2 & Hb & Hc1 & He & -> & ->) | (Hb & Ha & ->)]].
  - exists {| key := key e; value := v |}. split; [|done].
    rewrite entries_set_bucket by done.
    apply elem_of_app. right. apply elem_of_app. left.
    apply elem_of_app. right. apply elem_of_cons. by left.
  - exists {| key := k; value := v |}. split; [|done].
    change (entries (set_size ?a _)) with (entries a).
    rewrite entries_set_bucket by done.
    apply elem_of_app. right. apply elem_of_app. left.
    apply elem_of_cons. by left.
Qed.

Lemma put_other_key m k v w m' w' k' :
  live m ->
  (forall a b, compare m a b = 0%Z -> compare m b a = 0%Z) ->
  (forall x y z, compare m x y = 0%Z -> compare m y z = 0%Z -> compare m x z = 0%Z) ->
  mapPut (Some m) k v w = (true, Some m', w') ->
  compare m k k' <> 0%Z ->
  filter (holds m k') (entries m') = filter (holds m k') (entries m).
Proof.
  intros Hm Hsym Htrans Heq Hne.
  destruct (mapPut_true _ _ _ _ _ _ Heq)
    as [Hk [(c1 & e & c2 & Hb & Hc1 & He & -> & ->) | (Hb & Ha & ->)]].
  - rewrite entries_set_bucket, (entries_split m k), Hb by done.
    assert (~ holds m k' e) as Hne'.
    { intros He'. apply Hne. unfold holds in *. eauto. }
    rewrite !filter_app. do 2 f_equal.
    rewrite !filter_cons_False; done.
  - change (entries (set_size ?a _)) with (entries a).
    rewrite entries_set_bucket, (entries_split m k) by done.
    rewrite !filter_app. f_equal. f_equal.
    by rewrite filter_cons_False.
Qed.

Lemma remove_other_key m k w m' w' k' :
  live m ->
  (forall a b, compare m a b = 0%Z -> compare m b a = 0%Z) ->
  (forall x y z, compare m x y = 0%Z -> compare m y z = 0%Z -> compare m x z = 0%Z) ->
  mapRemove (Some m) k w = (true, Some m', w') ->
  compare m k k' <> 0%Z ->
  filter (holds m k') (entries m') = filter (holds m k') (entries m).
Proof.
  intros Hm Hsym Htrans Heq Hne.
  destruct (mapRemove_true _ _ _ _ _ Heq)
    as [Hk (c1 & e & c2 & Hb & Hc1 & He & [= ->] & ->)].
  change (entries (set_size ?a _)) with (entries a).
  rewrite entries_set_bucket, (entries_split m k), Hb by done.
  assert (~ holds m k' e) as Hne'.
  { intros He'. apply Hne. unfold holds in *. eauto. }
  rewrite !filter_app. do 2 f_equal.
  by rewrite filter_cons_False.
Qed.

(** After a successful [mapRemove] no entry holds the key any more. *)
Lemma remove_gone m k w m' w' :
  Inv m ->
  (forall a b, compare m a b = 0%Z -> hash m a = hash m b) ->
  mapRemove (Some m) k w = (true, Some m', w') ->
  Forall (fun x => ~ holds m k x) (entries m').
Proof.
  intros [Hm Hp Hu Hc] Hh Heq.
  destruct (mapRemove_true _ _ _ _ _ Heq)
    as [Hk (c1 & e & c2 & Hb & Hc1 & He & [= ->] & ->)].
  change (entries (set_size ?a _)) with (entries a).
  rewrite entries_set_bucket by done.
  specialize (Hu k). rewrite filter_entries, Hb in Hu by done.
  rewrite filter_app, (filter_none _ _ Hc1), filter_cons_True in Hu by done.
  simpl in Hu.
  assert (filter (holds m k) c2 = []) as Hc2
    by (destruct (filter (holds m k) c2); [done | simpl in Hu; lia]).
  apply filter_none_inv in Hc2.
  repeat apply Forall_app_2; auto using before_miss, after_miss.
Qed.

End Lookups.

(** ** The operations, one by one *)

Section Operations.
Context {W : Type} `{Allocator W}.
Implicit Types (m : @Map W) (k v : ptr) (e : MapEntry) (c : list MapEntry) (w : W).

(** An entry holding [k] is the first, and only, such entry of [k]'s bucket. *)
Lemma present_in_bucket m k e :
  Inv m -> consistent m -> e ∈ entries m -> holds m k e ->
  exists c1 c2,
    bucket m (index m k) = c1 ++ e :: c2 /\
    Forall (fun x => ~ holds m k x) c1 /\
    Forall (fun x => ~ holds m k x) c2.
Proof.
  intros [Hm Hp Hu Hc] Hh He Hk.
  pose proof (filter_unique m k e Hu He Hk) as Hf.
  rewrite filter_entries in Hf by done.
  destruct (first_split (holds m k) (bucket m (index m k)))
    as [Hb | (c1 & e0 & c2 & Hb & Hc1 & He0)].
  - by rewrite filter_none in Hf.
  - rewrite Hb, filter_app, (filter_none _ _ Hc1), filter_cons_True in Hf by done.
    simpl in Hf. injection Hf as -> Hc2.
    exists c1, c2. split; [done|]. split; [done|].
    by apply (filter_none_inv (holds m k)).
Qed.

(** C9. Every operation checks its table reference: on a null reference
    [mapPut], [mapRemove] and [mapResize] report failure, [mapContains] is
    false, [mapGet] returns [NULL], [mapSize] is 0, and [mapClear] and
    [mapDestroy] do nothing; the world is never touched. *)
Theorem null_reference_tolerated k v n w :
  mapPut None k v w = (false, None, w) /\
  mapRemove None k w = (false, None, w) /\
  mapResize None n w = (false, None, w) /\
  mapContains (@None (@Map W)) k = false /\
  mapGet (@None (@Map W)) k = NULL /\
  mapSize (@None (@Map W)) = 0 /\
  mapClear None w = (None, w) /\
  mapDestroy None w = w.
Proof. by repeat split. Qed.

(** C5. [mapResize] to capacity 0, or to a capacity below the current size,
    reports failure and returns the very same table in the very same world:
    capacity, size and the result of every [mapGet] are as before. *)
Theorem resize_rejection m n w :
  n = 0 \/ n < size m ->
  mapResize (Some m) n w = (false, Some m, w) /\
  (forall map' w', mapResize (Some m) n w = (false, map', w') ->
     map' = Some m /\ w' = w /\
     mapSize map' = size m /\
     (forall m', map' = Some m' -> capacity m' = capacity m) /\
     (forall k, mapGet map' k = mapGet (Some m) k)).
Proof.
  intros Hn. split; [by apply mapResize_rejected|].
  intros map' w' [-> ->]%mapResize_failure.
  repeat split; try done. by intros m' [= <-].
Qed.

(** C4. [mapPut] under a non-null key that some entry [e] of the table
    already holds reports success; the only change to the table is that
    [e]'s value is now [v], the entry keeping its own key (the key argument
    is neither stored nor released): the bucket array is the old one with
    that one entry rewritten in place, the entry holding the key now reads
    [v], and so does [mapGet]; no entry is added and the size and the
    capacity are unchanged; the only effect on the world is the release of
    [e]'s old value. *)
Theorem put_existing_key_overwrites m k v w e :
  Inv m -> consistent m -> k <> NULL ->
  e ∈ entries m -> holds m k e ->
  exists c1 c2 m',
    bucket m (index m k) = c1 ++ e :: c2 /\
    m' = set_bucket m (index m k) (c1 ++ {| key := key e; value := v |} :: c2) /\
    mapPut (Some m) k v w = (true, Some m', freeValue m (value e) w) /\
    size m' = size m /\
    key <$> entries m' = key <$> entries m /\
    length (entries m') = length (entries m) /\
    buckets m' =
      <[N.to_nat (index m k) := c1 ++ {| key := key e; value := v |} :: c2]>
        (buckets m) /\
    capacity m' = capacity m /\
    entries m = before m k ++ (c1 ++ e :: c2) ++ after m k /\
    entries m' =
      before m k ++ (c1 ++ {| key := key e; value := v |} :: c2) ++ after m k /\
    filter (holds m' k) (entries m') = [ {| key := key e; value := v |} ] /\
    mapGet (Some m') k = v /\
    mapContains (Some m') k = negb (v =? NULL) /\
    Inv m'.
Proof.
  intros Hinv Hh Hk He Hke.
  destruct (present_in_bucket m k e Hinv Hh He Hke) as (c1 & c2 & Hb & Hc1 & Hc2).
  pose proof (Inv_put_overwrite m k v c1 e c2 Hinv Hb) as Hinv'.
  destruct Hinv as [Hm Hp Hu Hc].
  set (e' := {| key := key e; value := v |}) in *.
  set (m' := set_bucket m (index m k) (c1 ++ e' :: c2)) in *.
  exists c1, c2, m'. split; [done|]. split; [done|].
  assert (key <$> entries m' = key <$> entries m) as Hkeys.
  { unfold m'. rewrite entries_set_bucket, (entries_split m k), Hb by done.
    by rewrite !fmap_app, !fmap_cons. }
  assert (entries m' = before m k ++ (c1 ++ e' :: c2) ++ after m k) as Hent'
    by (by apply entries_set_bucket).
  assert (e' ∈ entries m') as He'.
  { rewrite Hent'. apply elem_of_app. right. apply elem_of_app. left.
    apply elem_of_app. right. apply elem_of_cons. by left. }
  assert (holds m' k e') as Hke' by exact Hke.
  assert (filter (holds m' k) (entries m') = [e']) as Hf
    by (apply filter_unique; [apply Hinv'|done..]).
  assert (mapGet (Some m') k = v) as Hget.
  { rewrite mapGet_entries; try done; try apply Hinv'. by rewrite Hf. }
  split; [|split; [done|split; [done|split; [|split; [done|split; [done|
    split; [|split; [done|split; [done|split; [done|split; [|done]]]]]]]]]]].
  - unfold mapPut. destruct (N.eqb_spec k NULL); [done|].
    fold (index m k). rewrite Hb at 1. by rewrite put_loop_hit.
  - by rewrite <- (length_fmap key), Hkeys, length_fmap.
  - rewrite <- Hb. by apply entries_split.
  - unfold mapContains. by rewrite Hget.
Qed.

(** C6. On a table satisfying the invariant, [mapRemove] of a non-null key
    succeeds exactly when some entry holds the key. On success that entry is
    unlinked from its chain, its key and its value are released (in this
    order), its block is freed and the size is decremented; an immediate
    second [mapRemove] of the key fails. On failure the table and the world
    are unchanged. *)
Theorem remove_present_or_absent m k w :
  Inv m -> consistent m -> k <> NULL ->
  let r := mapRemove (Some m) k w in
  (r.1.1 = true <-> exists e, e ∈ entries m /\ holds m k e) /\
  (r.1.1 = true ->
     exists e c1 c2 m',
       e ∈ entries m /\ holds m k e /\
       bucket m (index m k) = c1 ++ e :: c2 /\
       r = (true, Some m',
            release EntryBlock (freeValue m (value e) (freeKey m (key e) w))) /\
       buckets m' = <[N.to_nat (index m k) := c1 ++ c2]> (buckets m) /\
       entries m ≡ₚ e :: entries m' /\
       size m' = size_t_dec (size m) /\
       (N.of_nat (length (entries m)) < SIZE_MODULUS -> size m' + 1 = size m) /\
       forall w2, mapRemove (Some m') k w2 = (false, Some m', w2)) /\
  (r.1.1 = false -> r = (false, Some m, w)).
Proof.
  intros Hinv Hh Hk r.
  assert (r.1.1 = true ->
     exists e c1 c2 m',
       e ∈ entries m /\ holds m k e /\
       bucket m (index m k) = c1 ++ e :: c2 /\
       r = (true, Some m',
            release EntryBlock (freeValue m (value e) (freeKey m (key e) w))) /\
       buckets m' = <[N.to_nat (index m k) := c1 ++ c2]> (buckets m) /\
       entries m ≡ₚ e :: entries m' /\
       size m' = size_t_dec (size m) /\
       (N.of_nat (length (entries m)) < SIZE_MODULUS -> size m' + 1 = size m) /\
       forall w2, mapRemove (Some m') k w2 = (false, Some m', w2)) as Hsucc.
  { intros Hr. destruct r as [[ok map'] w'] eqn:Heq. simpl in Hr. subst ok.
    pose proof Heq as Heq'.
    apply mapRemove_true in Heq' as [_ (c1 & e & c2 & Hb & Hc1 & He & -> & ->)].
    pose proof (remove_gone _ _ _ _ _ Hinv Hh Heq) as Hgone.
    destruct Hinv as [Hm Hp Hu Hc].
    assert (e ∈ entries m) as Hin.
    { rewrite (entries_split m k Hm), Hb.
      apply elem_of_app. right. apply elem_of_app. left.
      apply elem_of_app. right. apply elem_of_cons. by left. }
    assert (entries m ≡ₚ
            e :: entries (set_bucket m (index m k) (c1 ++ c2))) as Hperm.
    { rewrite entries_set_bucket, (entries_split m k), Hb by done.
      rewrite <- !app_assoc. simpl.
      rewrite (app_assoc (before m k) c1).
      by rewrite <- Permutation_middle, <- app_assoc. }
    eexists e, c1, c2, _. repeat split; try done.
    - simpl. rewrite Hc, Hperm. simpl length. intros Hlt.
      rewrite Nat2N.inj_succ, <- N.add_1_r in Hlt |- *.
      rewrite size_t_dec_wrap, !to_size_t_small; lia.
    - intros w2. unfold mapRemove. destruct (N.eqb_spec k NULL); [done|].
      rewrite remove_loop_miss; [done|].
      set (m1 := set_size _ _) in *.
      assert (live m1) as Hm1 by (by apply live_set_size, live_set_bucket).
      change (Forall (fun x => ~ holds m1 k x) (bucket m1 (index m1 k))).
      apply Forall_forall. intros x Hx. change (~ holds m k x).
      rewrite Forall_forall in Hgone. apply Hgone.
      rewrite (entries_split m1 k Hm1).
      apply elem_of_app. right. apply elem_of_app. by left. }
  split; [split|split]; [| |done|].
  - intros Hr. destruct (Hsucc Hr) as (e & _ & _ & _ & He & Hke & _). eauto.
  - intros (e & He & Hke).
    destruct (present_in_bucket m k e Hinv Hh He Hke) as (c1 & c2 & Hb & Hc1 & _).
    unfold r, mapRemove. destruct (N.eqb_spec k NULL); [done|].
    fold (index m k). rewrite Hb. by rewrite remove_loop_hit.
  - intros Hr. destruct r as [[ok map'] w'] eqn:Heq. simpl in Hr. subst ok.
    by apply mapRemove_false in Heq as [-> ->].
Qed.

(** C7. [mapClear] on a live table leaves a table of the same capacity whose
    size is 0 and in which [mapContains] is false (and [mapGet] is [NULL])
    for every key; every entry was released, bucket after bucket; the table
    satisfies the invariant again, so it can be used further. *)
Theorem clear_resets m w :
  live m ->
  exists m',
    mapClear (Some m) w =
      (Some m', foldl (fun w c => free_chain m c w) w (buckets m)) /\
    mapSize (Some m') = 0 /\
    (forall k, mapContains (Some m') k = false /\ mapGet (Some m') k = NULL) /\
    capacity m' = capacity m /\
    entries m' = [] /\
    Inv m' /\ same_functions m m'.
Proof.
  intros Hm.
  destruct (Inv_clear m w Hm) as (m' & Heq & Hinv & Hsame & Hcap & Hsz & Hnil).
  rewrite mapClear_live in Heq |- * by done. simpl in Heq. injection Heq as Heq.
  assert (forall k, mapGet (Some m') k = NULL) as Hget.
  { intros k. subst m'. unfold mapGet. destruct (k =? NULL); [done|].
    unfold bucket. simpl. rewrite lookup_total_replicate_2; [done|].
    pose proof (index_lt m k Hm). unfold index in *. lia. }
  exists m'. rewrite Heq. split; [done|]. split; [done|].
  split; [|done]. intros k. unfold mapContains. by rewrite Hget.
Qed.

Lemma run_put (map map' : option (@Map W)) k v w w' :
  run (Put k v) map w = (map', w') ->
  exists ok, mapPut map k v w = (ok, map', w').
Proof. intros [= <- <-]. by destruct (mapPut map k v w) as [[ok ?] ?]; exists ok. Qed.

Lemma run_remove (map map' : option (@Map W)) k w w' :
  run (Remove k) map w = (map', w') ->
  exists ok, mapRemove map k w = (ok, map', w').
Proof. intros [= <- <-]. by destruct (mapRemove map k w) as [[ok ?] ?]; exists ok. Qed.

Lemma run_resize (map map' : option (@Map W)) n w w' :
  run (Resize n) map w = (map', w') ->
  exists ok, mapResize map n w = (ok, map', w').
Proof. intros [= <- <-]. by destruct (mapResize map n w) as [[ok ?] ?]; exists ok. Qed.

Lemma run_clear (map : option (@Map W)) w :
  run Clear map w = mapClear map w.
Proof. done. Qed.

(** C3. A resize to a capacity that is at least 1 and at least the size
    succeeds as soon as the new bucket array can be allocated, and it then
    preserves the contents: [mapGet] returns for every key what it returned
    before, the size is unchanged, and the entries are the same ones,
    rehashed for the new capacity. *)
Theorem resize_preserves_contents m n w w1 :
  Inv m -> consistent m ->
  1 <= n -> size m <= n ->
  alloc (BucketsBlock n) w = Some w1 ->
  exists m',
    mapResize (Some m) n w =
      (true, Some m', release (BucketsBlock (capacity m)) w1) /\
    capacity m' = n /\
    mapSize (Some m') = mapSize (Some m) /\
    (forall k, mapGet (Some m') k = mapGet (Some m) k) /\
    entries m' ≡ₚ entries m /\
    Inv m'.
Proof.
  intros Hinv Hh Hn Hsz Ha.
  assert (exists m', mapResize (Some m) n w =
            (true, Some m', release (BucketsBlock (capacity m)) w1)) as [m0 Heq].
  { unfold mapResize. destruct (N.eqb_spec n 0); [lia|].
    destruct (N.ltb_spec n (size m)); [lia|]. simpl. rewrite Ha. eauto. }
  destruct (mapResize_success _ _ _ _ _ Hinv Heq)
    as (m' & w1' & [= <-] & Hinv' & Hsame & Hcap & Hsize & Hperm & _).
  exists m0. do 3 (split; [done|]). split; [|done].
  intros k. destruct (decide (k = NULL)) as [-> | Hk]; [done|].
  destruct Hsame as (Hhash & Hcmp & _).
  rewrite !mapGet_entries; try done; try apply Hinv; try apply Hinv'.
  - rewrite (filter_holds_same m m0) by done. f_equal. f_equal.
    apply Permutation_short; [by rewrite Hperm|].
    rewrite <- (filter_holds_same m m0) by done. apply Hinv'.
  - intros a b. rewrite Hhash, Hcmp. apply Hh.
Qed.

(** C8. In every table reachable from [mapCreate] through the API, each
    entry sits in the bucket whose index is the hash of its key modulo the
    capacity (and the bucket array has exactly [capacity] slots, with
    [capacity >= 1]). No assumption on the injected functions is needed. *)
Theorem reachable_entries_placed m :
  reachable m ->
  live m /\
  forall i c e, buckets m !! i = Some c -> e ∈ c ->
    N.to_nat (hash m (key e) mod capacity m) = i.
Proof.
  change (reachable m -> live m /\ placed m).
  induction 1 as [n h cmp fk fv w m w' Hc | m c w m' w' Hr [Hm Hp] Hrun].
  - apply Inv_create in Hc as [[Hm Hp _ _] _]. done.
  - destruct c as [k v | k | k | k | | | n];
      try (injection Hrun as <- <-; done).
    + apply run_put in Hrun as [ok Hrun].
      destruct (shape_put m k v w _ Hm Hp (mapPut_outcome m k v w))
        as (m1 & Heq & Hm1 & Hp1 & _).
      rewrite Hrun in Heq. by injection Heq as ->.
    + apply run_remove in Hrun as [ok Hrun].
      destruct (shape_remove m k w _ Hm Hp (mapRemove_outcome m k w))
        as (m1 & Heq & Hm1 & Hp1 & _).
      rewrite Hrun in Heq. by injection Heq as ->.
    + rewrite run_clear in Hrun.
      destruct (Inv_clear m w Hm) as (m1 & Heq & [Hm1 Hp1 _ _] & _).
      rewrite Hrun in Heq. simpl in Heq. by injection Heq as <-.
    + apply run_resize in Hrun as [[|] Hrun].
      * apply shape_resize in Hrun as (m1 & ? & [= <-] & Hm1 & Hp1 & _); done.
      * by apply mapResize_failure in Hrun as [[= <-] _].
Qed.

End Operations.

(** ** Sequences of calls *)

Section Sequences.
Context {W : Type} `{Allocator W}.
Implicit Types (m : @Map W) (k v : ptr) (e : MapEntry) (w : W).

(** A call that leaves [k] alone does not change which entry holds [k]. *)
Lemma run_leaves m k c w map' w' :
  Inv m -> key_contract (hash m) (compare m) ->
  leaves (compare m) k c ->
  run c (Some m) w = (map', w') ->
  exists m', map' = Some m' /\ Inv m' /\ same_functions m m' /\
    filter (holds m k) (entries m') = filter (holds m k) (entries m).
Proof.
  intros Hinv Hkc Hl Hrun. pose proof Hkc as [Hrefl Hsym Htrans Hh].
  destruct c as [k' v' | k' | k' | k' | | | n];
    try (injection Hrun as <- <-; exists m; by auto using same_functions_refl).
  - apply run_put in Hrun as [ok Hrun].
    pose proof (mapPut_outcome m k' v' w) as Ho. rewrite Hrun in Ho.
    destruct (Inv_put _ _ _ _ _ Hinv Hkc Ho) as (m1 & Heq & Hinv1 & Hsame).
    simpl in Heq. subst map'. exists m1. do 3 (split; [done|]).
    destruct ok.
    + eapply put_other_key; eauto. apply Hinv.
    + by apply mapPut_false in Hrun as [[= ->] _].
  - apply run_remove in Hrun as [ok Hrun].
    pose proof (mapRemove_outcome m k' w) as Ho. rewrite Hrun in Ho.
    destruct (Inv_remove _ _ _ _ Hinv Ho) as (m1 & Heq & Hinv1 & Hsame).
    simpl in Heq. subst map'. exists m1. do 3 (split; [done|]).
    destruct ok.
    + eapply remove_other_key; eauto. apply Hinv.
    + by apply mapRemove_false in Hrun as [[= ->] _].
  - apply run_resize in Hrun as [[|] Hrun].
    + apply mapResize_success in Hrun
        as (m1 & w1 & -> & Hinv1 & Hsame & _ & _ & Hperm & _); [|done].
      exists m1. do 3 (split; [done|]).
      apply Permutation_short; [by rewrite Hperm|].
      rewrite <- (filter_holds_same m m1) by apply Hsame. apply Hinv1.
    + apply mapResize_failure in Hrun as [-> _].
      exists m. auto using same_functions_refl.
Qed.

Lemma run_all_leaves m k cs w map' w' :
  Inv m -> key_contract (hash m) (compare m) ->
  Forall (leaves (compare m) k) cs ->
  run_all cs (Some m) w = (map', w') ->
  exists m', map' = Some m' /\ Inv m' /\ same_functions m m' /\
    filter (holds m k) (entries m') = filter (holds m k) (entries m).
Proof.
  intros Hinv Hkc Hcs. revert m w Hinv Hkc Hcs.
  induction cs as [|c cs IH]; intros m w Hinv Hkc Hcs Hrun.
  - injection Hrun as <- <-. exists m. auto using same_functions_refl.
  - apply Forall_cons in Hcs as [Hc Hcs]. simpl in Hrun.
    destruct (run c (Some m) w) as [map1 w1] eqn:Hc1.
    destruct (run_leaves _ _ _ _ _ _ Hinv Hkc Hc Hc1)
      as (m1 & -> & Hinv1 & Hsame1 & Hf1).
    pose proof Hsame1 as (Hhash & Hcmp & _).
    destruct (IH m1 w1) as (m2 & -> & Hinv2 & Hsame2 & Hf2); auto.
    + by apply (key_contract_same m).
    + by rewrite Hcmp.
    + exists m2. do 2 (split; [done|]).
      split; [by eapply same_functions_trans|].
      rewrite <- Hf1.
      rewrite <- (filter_holds_same m m1 k (entries m2)) by done.
      by rewrite <- (filter_holds_same m m1 k (entries m1)).
Qed.

(** C2. After a successful [mapPut] of [v] under [k], and after any further
    calls that neither store under a key equal to [k], nor remove such a
    key, nor clear the table (none at all, in particular), [mapGet] of [k]
    returns [v]. The injected equality is assumed to be an equivalence that
    the hash respects. *)
Theorem put_then_get m k v w m1 w1 cs map2 w2 :
  Inv m -> key_contract (hash m) (compare m) ->
  mapPut (Some m) k v w = (true, Some m1, w1) ->
  Forall (leaves (compare m) k) cs ->
  run_all cs (Some m1) w1 = (map2, w2) ->
  mapGet map2 k = v.
Proof.
  intros Hinv Hkc Hput Hcs Hrun. pose proof Hkc as [Hrefl Hsym Htrans Hh].
  pose proof (mapPut_outcome m k v w) as Ho. rewrite Hput in Ho.
  destruct (Inv_put _ _ _ _ _ Hinv Hkc Ho) as (m1' & [= <-] & Hinv1 & Hsame1).
  pose proof Hsame1 as (Hhash1 & Hcmp1 & _).
  destruct (put_stores _ _ _ _ _ _ (inv_live _ Hinv) (Hrefl k) Hput)
    as (e & He & Hke & Hv).
  destruct (mapPut_true _ _ _ _ _ _ Hput) as [Hk _].
  destruct (run_all_leaves m1 k cs w1 map2 w2) as (m2 & -> & Hinv2 & Hsame2 & Hf);
    auto.
  { by apply (key_contract_same m). }
  { by rewrite Hcmp1. }
  pose proof Hsame2 as (Hhash2 & Hcmp2 & _).
  rewrite mapGet_entries; try done; try apply Hinv2.
  - rewrite (filter_holds_same m1 m2), Hf by done.
    rewrite (filter_unique m1 k e); try done; [apply Hinv1|].
    unfold holds in *. by rewrite Hcmp1.
  - intros a b. rewrite Hhash2, Hcmp2, Hhash1, Hcmp1. apply Hh.
Qed.

End Sequences.

(** ** Sequences of [mapPut] *)

Section PutSequences.
Context {W : Type} `{Allocator W}.
Implicit Types (m : @Map W) (k v : ptr) (e : MapEntry) (w : W).

#[local] Arguments mapPut : simpl never.

Lemma last_put_snoc cmp k (L : list (ptr * ptr)) k0 v0 :
  last_put cmp k (L ++ [(k0, v0)]) =
    if decide (cmp k0 k = 0%Z) then Some v0 else last_put cmp k L.
Proof.
  induction L as [|kv L IH]; simpl; [done|].
  rewrite IH. by destruct (decide (cmp k0 k = 0%Z)).
Qed.

Lemma last_put_is_Some cmp k (L : list (ptr * ptr)) :
  is_Some (last_put cmp k L) <-> Exists (fun k' => cmp k' k = 0%Z) L.*1.
Proof.
  induction L as [|kv L IH]; simpl.
  - split; [by intros [? ?] | by intros ?%Exists_nil].
  - rewrite Exists_cons, <- IH.
    destruct (last_put cmp k L) as [v|]; [by split; eauto|].
    destruct (decide (cmp kv.1 k = 0%Z)); split; eauto;
      try (intros [? | [? ?]]; done); by intros [? ?].
Qed.

Lemma distinct_keys_snoc cmp (ks : list ptr) k0 :
  (forall a b, cmp a b = 0%Z -> cmp b a = 0%Z) ->
  (forall a b c, cmp a b = 0%Z -> cmp b c = 0%Z -> cmp a c = 0%Z) ->
  distinct_keys cmp (ks ++ [k0]) =
    if decide (Exists (fun k' => cmp k' k0 = 0%Z) ks)
    then distinct_keys cmp ks else S (distinct_keys cmp ks).
Proof.
  intros Hsym Htrans. induction ks as [|k ks IH]; simpl.
  - repeat case_decide; try done;
      match goal with Hx : Exists _ [] |- _ => by apply Exists_nil in Hx end.
  - rewrite IH.
    assert (Exists (fun k' => cmp k' k = 0%Z) (ks ++ [k0]) <->
            Exists (fun k' => cmp k' k = 0%Z) ks \/ cmp k0 k = 0%Z) as H1.
    { rewrite Exists_app, Exists_cons, Exists_nil. tauto. }
    assert (Exists (fun k' => cmp k' k0 = 0%Z) (k :: ks) <->
            cmp k k0 = 0%Z \/ Exists (fun k' => cmp k' k0 = 0%Z) ks) as H2
      by apply Exists_cons.
    assert (cmp k0 k = 0%Z ->
            (Exists (fun k' => cmp k' k = 0%Z) ks <->
             Exists (fun k' => cmp k' k0 = 0%Z) ks)) as H3.
    { intros Hk. rewrite !Exists_exists. split; intros (x & Hx & Hxk); eauto. }
    assert (cmp k0 k = 0%Z <-> cmp k k0 = 0%Z) as H4 by (split; auto).
    repeat case_decide; try done; exfalso; tauto.
Qed.

Lemma put_all_spec cmp calls : forall m w (L : list (ptr * ptr)),
  Inv m -> key_contract (hash m) (compare m) -> compare m = cmp ->
  (forall k, value <$> filter (holds m k) (entries m) =
             option_list (last_put cmp k L)) ->
  length (entries m) = distinct_keys cmp L.*1 ->
  exists m',
    (put_all calls (Some m) w).1.2 = Some m' /\ Inv m' /\ same_functions m m' /\
    (forall k, value <$> filter (holds m' k) (entries m') =
       option_list
         (last_put cmp k (L ++ accepted calls (put_all calls (Some m) w).1.1))) /\
    length (entries m') =
      distinct_keys cmp (L ++ accepted calls (put_all calls (Some m) w).1.1).*1.
Proof.
  induction calls as [|[k0 v0] calls IH]; intros m w L Hinv Hkc Hcmp Hlast Hlen.
  - simpl. rewrite app_nil_r. exists m. auto using same_functions_refl.
  - simpl. destruct (mapPut (Some m) k0 v0 w) as [[ok map1] w1] eqn:Hput. simpl.
    pose proof Hkc as [Hrefl Hsym Htrans Hh].
    destruct ok.
    + pose proof (mapPut_outcome m k0 v0 w) as Ho. rewrite Hput in Ho.
      destruct (Inv_put _ _ _ _ _ Hinv Hkc Ho) as (m1 & Heq & Hinv1 & Hsame1).
      simpl in Heq. subst map1. pose proof Hsame1 as (Hhash1 & Hcmp1 & _).
      destruct (IH m1 w1 (L ++ [(k0, v0)])) as (m2 & Heq2 & Hinv2 & Hsame2 & Hl2 & Hn2).
      * done.
      * by apply (key_contract_same m).
      * congruence.
      * intros k. rewrite last_put_snoc.
        destruct (decide (cmp k0 k = 0%Z)) as [Hk | Hk].
        -- destruct (put_stores _ _ _ _ _ _ (inv_live _ Hinv) (Hrefl k0) Hput)
             as (e & He & Hke & Hv).
           rewrite (filter_unique m1 k e); [by rewrite <- Hv|apply Hinv1|done|].
           unfold holds in *. rewrite Hcmp1. subst cmp. eauto.
        -- rewrite (filter_holds_same m m1) by done.
           rewrite (put_other_key _ _ _ _ _ _ k (inv_live _ Hinv) Hsym Htrans Hput)
             by congruence.
           apply Hlast.
      * rewrite fmap_app. simpl.
        rewrite distinct_keys_snoc by (subst cmp; done).
        destruct (mapPut_true _ _ _ _ _ _ Hput)
          as [Hk0 [(c1 & e & c2 & Hb & Hc1 & He & -> & ->) | (Hb & Ha & ->)]].
        -- assert (length (entries (set_bucket m (index m k0)
                     (c1 ++ {| key := key e; value := v0 |} :: c2))) =
                   length (entries m)) as ->.
           { rewrite entries_set_bucket, (entries_split m k0), Hb by apply Hinv.
             by rewrite !length_app. }
           assert (e ∈ entries m) as Hin.
           { rewrite (entries_split m k0), Hb by apply Hinv.
             apply elem_of_app. right. apply elem_of_app. left.
             apply elem_of_app. right. apply elem_of_cons. by left. }
           specialize (Hlast k0).
           rewrite (filter_unique m k0 e) in Hlast; [|apply Hinv|done..].
           rewrite decide_True; [done|]. apply last_put_is_Some.
           destruct (last_put cmp k0 L); [by eexists|done].
        -- change (entries (set_size ?a _)) with (entries a).
           assert (length (entries (set_bucket m (index m k0)
                     ({| key := k0; value := v0 |} :: bucket m (index m k0)))) =
                   S (length (entries m))) as ->.
           { rewrite entries_set_bucket, (entries_split m k0) by apply Hinv.
             rewrite !length_app. simpl. lia. }
           specialize (Hlast k0).
           rewrite filter_none in Hlast
             by (apply absent_everywhere; auto; apply Hinv).
           rewrite decide_False; [by rewrite Hlen|].
           intros [v Hv]%last_put_is_Some. by rewrite Hv in Hlast.
      * exists m2. rewrite <- app_assoc in Hl2, Hn2. simpl in Hl2, Hn2.
        split; [done|]. split; [done|].
        split; [by eapply same_functions_trans|]. done.
    + apply mapPut_false in Hput as [-> ->].
      by destruct (IH m w L) as (m2 & Heq2 & Hinv2 & Hsame2 & Hl2 & Hn2); eauto.
Qed.

Lemma put_all_accepts calls : forall m w,
  (forall w', is_Some (alloc EntryBlock w')) ->
  Forall (fun kv => kv.1 <> NULL) calls ->
  accepted calls (put_all calls (Some m) w).1.1 = calls.
Proof.
  induction calls as [|[k0 v0] calls IH]; intros m w Ha Hcalls; [done|].
  apply Forall_cons in Hcalls as [Hk0 Hcalls]. simpl in *.
  pose proof (mapPut_outcome m k0 v0 w) as Ho.
  destruct Ho as [Hk | c1 e c2 Hk Hb Hc1 He | Hk Hb Hno | w' Hk Hb Hw']; simpl.
  - done.
  - by rewrite IH.
  - destruct (Ha w) as [? ?]. congruence.
  - by rewrite IH.
Qed.

(** The value read under [k] is that of the entry holding [k]. *)
Lemma stored_value_read m k e :
  Inv m -> consistent m -> k <> NULL ->
  e ∈ entries m -> holds m k e ->
  mapGet (Some m) k = value e.
Proof.
  intros Hinv Hh Hk He Hke.
  rewrite mapGet_entries; try done; try apply Hinv.
  by rewrite (filter_unique m k e); try apply Hinv.
Qed.

Lemma absent_value_read m k :
  Inv m -> consistent m ->
  Forall (fun x => ~ holds m k x) (entries m) ->
  mapGet (Some m) k = NULL.
Proof.
  intros Hinv Hh Habs. destruct (decide (k = NULL)) as [-> | Hk]; [done|].
  rewrite mapGet_entries; try done; try apply Hinv.
  by rewrite filter_none.
Qed.

(** C1. A table is created and a sequence of [mapPut] calls is run on it;
    the injected equality is an equivalence that the hash respects. Then,
    counting the calls that reported success: every key put is held by
    exactly one entry, whose value is the one put last under that key, and
    [mapGet] returns it; a key never put is held by no entry; the number of
    entries, and [mapSize] (a [size_t]), is the number of distinct keys put.
    When allocation cannot fail, every call with a non-null key counts. *)
Theorem put_sequence_unique_latest n h cmp fk fv w0 m0 w1 calls :
  key_contract h cmp ->
  mapCreate n h cmp fk fv w0 = (Some m0, w1) ->
  let r := put_all calls (Some m0) w1 in
  let stored := accepted calls r.1.1 in
  exists m,
    r.1.2 = Some m /\
    (forall k v, last_put cmp k stored = Some v ->
       exists e, filter (holds m k) (entries m) = [e] /\ value e = v /\
                 (k <> NULL -> mapGet (Some m) k = v)) /\
    (forall k, last_put cmp k stored = None ->
       filter (holds m k) (entries m) = []) /\
    length (entries m) = distinct_keys cmp stored.*1 /\
    mapSize (Some m) = to_size_t (N.of_nat (distinct_keys cmp stored.*1)) /\
    (N.of_nat (distinct_keys cmp stored.*1) < SIZE_MODULUS ->
       mapSize (Some m) = N.of_nat (distinct_keys cmp stored.*1)) /\
    ((forall w, is_Some (alloc EntryBlock w)) ->
       Forall (fun kv => kv.1 <> NULL) calls -> stored = calls).
Proof.
  intros Hkc Hc r stored.
  apply Inv_create in Hc as (Hinv0 & Hnil & _ & _ & Hhash & Hcmp & _).
  destruct (put_all_spec cmp calls m0 w1 []) as (m & Heq & Hinv & Hsame & Hlast & Hlen).
  - done.
  - by rewrite Hhash, Hcmp.
  - done.
  - intros k. by rewrite Hnil.
  - by rewrite Hnil.
  - simpl in Hlast, Hlen. fold r in Heq, Hlast, Hlen. fold stored in Hlast, Hlen.
    destruct Hsame as (Hhash' & Hcmp' & _).
    assert (consistent m) as Hcons.
    { intros a b. rewrite Hhash', Hcmp', Hhash, Hcmp. apply Hkc. }
    exists m. split; [done|]. repeat split.
    + intros k v Hv. specialize (Hlast k). rewrite Hv in Hlast. simpl in Hlast.
      destruct (filter (holds m k) (entries m)) as [|e [|e' l]] eqn:Hf;
        simplify_eq/=.
      exists e. repeat split. intros Hk.
      assert (e ∈ filter (holds m k) (entries m)) as [Hke He]%list_elem_of_filter.
      { rewrite Hf. apply elem_of_cons. by left. }
      by apply stored_value_read.
    + intros k Hv. specialize (Hlast k). rewrite Hv in Hlast.
      by apply fmap_nil_inv in Hlast.
    + done.
    + simpl. rewrite <- Hlen. apply Hinv.
    + intros Hsmall. simpl.
      rewrite (inv_counted _ Hinv), Hlen. by apply to_size_t_small.
    + intros Ha Hcalls. by apply put_all_accepts.
Qed.

(** C10. A successful [mapPut] of the value [NULL]: the entry is there and
    the size counts it, yet [mapGet] returns [NULL] and [mapContains] is
    false, exactly as for a key that no entry holds. *)
Theorem null_value_reads_as_absent m k w m' w' :
  Inv m -> key_contract (hash m) (compare m) ->
  mapPut (Some m) k NULL w = (true, Some m', w') ->
  (exists e, e ∈ entries m' /\ holds m' k e /\ value e = NULL) /\
  mapSize (Some m') = to_size_t (N.of_nat (length (entries m'))) /\
  (0 < length (entries m'))%nat /\
  mapGet (Some m') k = NULL /\
  mapContains (Some m') k = false /\
  (forall k', Forall (fun x => ~ holds m' k' x) (entries m') ->
     mapGet (Some m') k' = NULL /\ mapContains (Some m') k' = false).
Proof.
  intros Hinv Hkc Hput. pose proof Hkc as [Hrefl Hsym Htrans Hh].
  pose proof (mapPut_outcome m k NULL w) as Ho. rewrite Hput in Ho.
  destruct (Inv_put _ _ _ _ _ Hinv Hkc Ho) as (m1 & [= <-] & Hinv' & Hsame).
  destruct Hsame as (Hhash' & Hcmp' & _).
  assert (consistent m') as Hcons.
  { intros a b. rewrite Hhash', Hcmp'. apply Hh. }
  destruct (put_stores _ _ _ _ _ _ (inv_live _ Hinv) (Hrefl k) Hput)
    as (e & He & Hke & Hv).
  destruct (mapPut_true _ _ _ _ _ _ Hput) as [Hk _].
  assert (holds m' k e) as Hke' by (unfold holds in *; by rewrite Hcmp').
  assert (mapGet (Some m') k = NULL) as Hget
    by (by rewrite (stored_value_read m' k e)).
  split; [by exists e|]. split; [apply Hinv'|].
  split; [destruct (entries m'); [by apply elem_of_nil in He | simpl; lia]|].
  split; [done|]. split; [unfold mapContains; by rewrite Hget|].
  intros k' Habs. pose proof (absent_value_read m' k' Hinv' Hcons Habs) as Hget'.
  split; [done|]. unfold mapContains. by rewrite Hget'.
Qed.

End PutSequences.

(** ** The invariant along any run *)

Section Runs.
Context {W : Type} `{Allocator W}.
Implicit Types (m : @Map W) (k v : ptr) (e : MapEntry) (w : W).

Lemma Inv_run m c w map' w' :
  Inv m -> key_contract (hash m) (compare m) ->
  run c (Some m) w = (map', w') ->
  exists m', map' = Some m' /\ Inv m' /\ same_functions m m'.
Proof.
  intros Hinv Hkc Hrun.
  destruct c as [k v | k | k | k | | | n];
    try (injection Hrun as <- <-; exists m; by auto using same_functions_refl).
  - apply run_put in Hrun as [ok Hrun].
    pose proof (mapPut_outcome m k v w) as Ho. rewrite Hrun in Ho.
    by apply (Inv_put _ _ _ _ _ Hinv Hkc) in Ho.
  - apply run_remove in Hrun as [ok Hrun].
    pose proof (mapRemove_outcome m k w) as Ho. rewrite Hrun in Ho.
    by apply (Inv_remove _ _ _ _ Hinv) in Ho.
  - rewrite run_clear in Hrun.
    destruct (Inv_clear m w (inv_live _ Hinv)) as (m1 & Heq & Hinv1 & Hsame & _).
    rewrite Hrun in Heq. simpl in Heq. subst map'. by exists m1.
  - apply run_resize in Hrun as [[|] Hrun].
    + apply mapResize_success in Hrun as (m1 & w1 & -> & Hinv1 & Hsame & _); [|done].
      by exists m1.
    + apply mapResize_failure in Hrun as [-> _].
      exists m. auto using same_functions_refl.
Qed.

Lemma Inv_run_all cs : forall m w map' w',
  Inv m -> key_contract (hash m) (compare m) ->
  run_all cs (Some m) w = (map', w') ->
  exists m', map' = Some m' /\ Inv m' /\ same_functions m m'.
Proof.
  induction cs as [|c cs IH]; intros m w map' w' Hinv Hkc Hrun.
  - injection Hrun as <- <-. exists m. auto using same_functions_refl.
  - simpl in Hrun. destruct (run c (Some m) w) as [map1 w1] eqn:Hc.
    destruct (Inv_run _ _ _ _ _ Hinv Hkc Hc) as (m1 & -> & Hinv1 & Hsame1).
    destruct (IH m1 w1 map' w' Hinv1) as (m2 & -> & Hinv2 & Hsame2); auto.
    + by apply (key_contract_same m).
    + exists m2. eauto using same_functions_trans.
Qed.

(** Under the contract, every reachable table satisfies the invariant:
    the size counts the entries, keys are unique, entries are placed. *)
Lemma reachable_Inv m :
  reachable m -> key_contract (hash m) (compare m) -> Inv m.
Proof.
  induction 1 as [n h cmp fk fv w m w' Hc | m c w m' w' Hr IH Hrun]; intros Hkc.
  - by apply Inv_create in Hc as [? _].
  - assert (same_functions m m' -> Inv m') as Hgo.
    { intros Hsame. pose proof Hsame as (Hhash & Hcmp & _).
      rewrite Hhash, Hcmp in Hkc.
      destruct (Inv_run _ _ _ _ _ (IH Hkc) Hkc Hrun) as (m1 & [= <-] & Hinv1 & _).
      done. }
    apply Hgo. clear Hgo IH Hkc Hr.
    destruct c as [k v | k | k | k | | | n];
      try (injection Hrun as <- <-; by apply same_functions_refl).
    + apply run_put in Hrun as [ok Hrun].
      pose proof (mapPut_outcome m k v w) as Ho. rewrite Hrun in Ho.
      inversion Ho; subst; by repeat split.
    + apply run_remove in Hrun as [ok Hrun].
      pose proof (mapRemove_outcome m k w) as Ho. rewrite Hrun in Ho.
      inversion Ho; subst; by repeat split.
    + rewrite run_clear in Hrun. unfold mapClear in Hrun.
      injection Hrun as <- _. by repeat split.
    + apply run_resize in Hrun as [ok Hrun]. unfold mapResize in Hrun.
      destruct (_ || _); [injection Hrun as _ <- _; by repeat split|].
      destruct (alloc _ w); injection Hrun as _ <- _; by repeat split.
Qed.

End Runs.

(** * Worked instances *)

Section RunFacts.
Context {W : Type} `{Allocator W}.
Implicit Types (m : @Map W) (w : W).

Lemma run_Some c m w map' w' :
  run c (Some m) w = (map', w') -> exists m', map' = Some m'.
Proof.
  intros Hrun.
  destruct c as [k v | k | k | k | | | n];
    try (injection Hrun as <- <-; by eauto).
  - apply run_put in Hrun as [ok Hrun].
    pose proof (mapPut_outcome m k v w) as Ho. rewrite Hrun in Ho.
    inversion Ho; eauto.
  - apply run_remove in Hrun as [ok Hrun].
    pose proof (mapRemove_outcome m k w) as Ho. rewrite Hrun in Ho.
    inversion Ho; eauto.
  - apply run_resize in Hrun as [ok Hrun]. unfold mapResize in Hrun.
    destruct (_ || _); [injection Hrun as _ <- _; by eauto|].
    destruct (alloc _ w); injection Hrun as _ <- _; by eauto.
Qed.

Lemma reachable_run_all cs : forall m w m' w',
  reachable m -> run_all cs (Some m) w = (Some m', w') -> reachable m'.
Proof.
  induction cs as [|c cs IH]; intros m w m' w' Hm Hrun.
  - by injection Hrun as <- <-.
  - simpl in Hrun. destruct (run c (Some m) w) as [map1 w1] eqn:Hc.
    destruct (run_Some _ _ _ _ _ Hc) as [m1 ->].
    eapply IH; [|done]. by eapply reach_call.
Qed.

End RunFacts.

Lemma addr_contract : key_contract Demo.addrHash Demo.addrCompare.
Proof. split; unfold Demo.addrHash, Demo.addrCompare; intros; lia. Qed.

Lemma fresh_created :
  mapCreate 2 Demo.addrHash Demo.addrCompare (Some Demo.logKey) (Some Demo.logValue) []
  = (Some Demo.fresh, [Demo.Allocated (BucketsBlock 2); Demo.Allocated MapBlock]).
Proof. reflexivity. Qed.

Lemma three_built :
  run_all [Put 1 10; Put 3 30; Put 4 40] (Some Demo.fresh) [] =
  (Some Demo.three,
   [Demo.Allocated EntryBlock; Demo.Allocated EntryBlock; Demo.Allocated EntryBlock]).
Proof. reflexivity. Qed.

Lemma fresh_Inv : Inv Demo.fresh.
Proof. by destruct (Inv_create _ _ _ _ _ _ _ _ fresh_created). Qed.

Lemma three_Inv : Inv Demo.three.
Proof.
  destruct (Inv_run_all _ _ _ _ _ fresh_Inv addr_contract three_built)
    as (m & [= <-] & Hinv & _). done.
Qed.

Lemma three_reachable : reachable Demo.three.
Proof.
  eapply reachable_run_all; [|exact three_built].
  eapply reach_create. exact fresh_created.
Qed.

Lemma three_consistent : consistent Demo.three.
Proof. exact (hash_consistent _ _ addr_contract). Qed.

(** The scenario of [examples/basic.c], with addresses for the strings:
    two keys stored, one read, one tested, one removed, then the clear. *)
Example basic_scenario :
  let w0 : list Demo.event := [] in
  let created := mapCreate 10 Demo.addrHash Demo.addrCompare None None w0 in
  let put1 := mapPut (created.1) 101 201 (created.2) in
  let put2 := mapPut (put1.1.2) 102 202 (put1.2) in
  let removed := mapRemove (put2.1.2) 101 (put2.2) in
  let cleared := mapClear (removed.1.2) (removed.2) in
  put1.1.1 = true /\ put2.1.1 = true /\
  mapSize (put2.1.2) = 2 /\
  mapGet (put2.1.2) 101 = 201 /\
  mapContains (put2.1.2) 102 = true /\
  removed.1.1 = true /\ mapSize (removed.1.2) = 1 /\
  mapSize (cleared.1) = 0.
Proof. vm_compute. by repeat split. Qed.

(** A new entry becomes the head of its chain; an entry in the middle of a
    chain is unlinked through its predecessor. *)
Example chain_order :
  Demo.view (mapPut (Some Demo.one) 3 30 []).1.2 =
    Some ([ []; [ {| key := 3; value := 30 |}; {| key := 1; value := 10 |} ] ], 2, 2) /\
  mapRemove (Some Demo.three) 1 [] =
    (true,
     Some (set_size (set_bucket Demo.three 1 [ {| key := 3; value := 30 |} ]) 2),
     [Demo.Released EntryBlock; Demo.ValueFreed 10; Demo.KeyFreed 1]) /\
  Demo.view (mapRemove (Some Demo.three) 3 []).1.2 =
    Some ([ [ {| key := 4; value := 40 |} ]; [ {| key := 1; value := 10 |} ] ], 2, 2).
Proof. by repeat split. Qed.

(** Rehashing three entries from 2 buckets into 5. *)
Example resize_to_five :
  Demo.view (mapResize (Some Demo.three) 5 []).1.2 =
    Some ([ []; [ {| key := 1; value := 10 |} ]; [];
            [ {| key := 3; value := 30 |} ]; [ {| key := 4; value := 40 |} ] ], 5, 3) /\
  (mapResize (Some Demo.three) 5 []).2 =
    [Demo.Released (BucketsBlock 2); Demo.Allocated (BucketsBlock 5)].
Proof. by split. Qed.

(** [mapClear] and [mapDestroy] release every entry, bucket after bucket
    and from the head of each chain on (the log reads latest first). *)
Example clear_then_destroy :
  mapClear (Some Demo.three) [] =
    (Some Demo.fresh,
     [Demo.Released EntryBlock; Demo.ValueFreed 10; Demo.KeyFreed 1;
      Demo.Released EntryBlock; Demo.ValueFreed 30; Demo.KeyFreed 3;
      Demo.Released EntryBlock; Demo.ValueFreed 40; Demo.KeyFreed 4]) /\
  mapDestroy (Some Demo.fresh) [] =
    [Demo.Released MapBlock; Demo.Released (BucketsBlock 2)].
Proof. by split. Qed.

(** Allocation failures leave everything as it was: the table struct is
    given back when the bucket array cannot be had, and a put that needs a
    new entry changes nothing; an overwrite needs no memory. *)
Example out_of_memory :
  mapCreate (W := nat) 2 Demo.addrHash Demo.addrCompare None None 1%nat
    = (None, 1%nat) /\
  mapCreate (W := nat) 2 Demo.addrHash Demo.addrCompare None None 0%nat
    = (None, 0%nat) /\
  mapPut (Some Budget.seven) 8 80 0%nat = (false, Some Budget.seven, 0%nat) /\
  (mapPut (Some Budget.seven) 7 71 0%nat).1.1 = true /\
  mapResize (Some Budget.seven) 4 0%nat = (false, Some Budget.seven, 0%nat).
Proof. by repeat split. Qed.

(** ** The theorems at concrete inputs *)

(** C1 at: a table of two buckets, then 10 under key 1, 30 under 3, 11 under
    1 again, 40 under 4. Key 1 reads 11 and the size is 3. *)
Lemma put_sequence_unique_latest_witness :
  key_contract Demo.addrHash Demo.addrCompare /\
  mapCreate 2 Demo.addrHash Demo.addrCompare (Some Demo.logKey) (Some Demo.logValue) []
    = (Some Demo.fresh, [Demo.Allocated (BucketsBlock 2); Demo.Allocated MapBlock]) /\
  exists m,
    (put_all [(1, 10); (3, 30); (1, 11); (4, 40)] (Some Demo.fresh)
       [Demo.Allocated (BucketsBlock 2); Demo.Allocated MapBlock]).1.2 = Some m /\
    mapGet (Some m) 1 = 11 /\
    mapSize (Some m) = 3.
Proof.
  split; [exact addr_contract|]. split; [exact fresh_created|].
  pose proof (put_sequence_unique_latest 2 Demo.addrHash Demo.addrCompare
                (Some Demo.logKey) (Some Demo.logValue) [] Demo.fresh _
                [(1, 10); (3, 30); (1, 11); (4, 40)] addr_contract fresh_created)
    as Hw.
  cbv zeta in Hw. destruct Hw as (m & Heq & Hlast & _ & _ & _ & Hsize & _).
  exists m. split; [exact Heq|]. split.
  - destruct (Hlast 1 11) as (e & _ & _ & Hget); [reflexivity|].
    apply Hget. discriminate.
  - rewrite Hsize; reflexivity.
Defined.

(** C2 at: 10 stored under key 1 in the empty table, then key 3 stored, the
    table resized to 5 buckets, key 3 removed and key 1 read once. *)
Lemma put_then_get_witness :
  Inv Demo.fresh /\
  key_contract (hash Demo.fresh) (compare Demo.fresh) /\
  mapPut (Some Demo.fresh) 1 10 [] = (true, Some Demo.one, [Demo.Allocated EntryBlock]) /\
  Forall (leaves (compare Demo.fresh) 1) [Put 3 30; Resize 5; Remove 3; Get 1] /\
  mapGet (run_all [Put 3 30; Resize 5; Remove 3; Get 1] (Some Demo.one)
            [Demo.Allocated EntryBlock]).1 1 = 10.
Proof.
  assert (Forall (leaves (compare Demo.fresh) 1) [Put 3 30; Resize 5; Remove 3; Get 1])
    as Hcs by (repeat constructor; simpl; discriminate).
  assert (mapPut (Some Demo.fresh) 1 10 [] =
          (true, Some Demo.one, [Demo.Allocated EntryBlock])) as Hput
    by reflexivity.
  split; [exact fresh_Inv|]. split; [exact addr_contract|].
  split; [exact Hput|]. split; [exact Hcs|].
  eapply (put_then_get Demo.fresh 1 10 [] Demo.one [Demo.Allocated EntryBlock]
            _ _ _ fresh_Inv addr_contract Hput Hcs).
  apply surjective_pairing.
Defined.

(** C3 at: the table of three entries resized from 2 to 5 buckets. *)
Lemma resize_preserves_contents_witness :
  Inv Demo.three /\ consistent Demo.three /\
  1 <= 5 /\ size Demo.three <= 5 /\
  alloc (BucketsBlock 5) [] = Some [Demo.Allocated (BucketsBlock 5)] /\
  exists m',
    mapResize (Some Demo.three) 5 [] =
      (true, Some m',
       [Demo.Released (BucketsBlock 2); Demo.Allocated (BucketsBlock 5)]) /\
    mapSize (Some m') = 3 /\
    forall k, mapGet (Some m') k = mapGet (Some Demo.three) k.
Proof.
  assert (1 <= 5) as H1 by lia.
  assert (size Demo.three <= 5) as H2 by (simpl; lia).
  split; [exact three_Inv|]. split; [exact three_consistent|].
  assert (alloc (BucketsBlock 5) [] = Some [Demo.Allocated (BucketsBlock 5)])
    as Ha by reflexivity.
  split; [exact H1|]. split; [exact H2|]. split; [exact Ha|].
  destruct (resize_preserves_contents Demo.three 5 [] _
              three_Inv three_consistent H1 H2 Ha)
    as (m' & Heq & _ & Hsize & Hget & _).
  exists m'. split; [exact Heq|]. split; [exact Hsize | exact Hget].
Defined.

(** C4 at: 33 stored under key 3, which the table of three entries holds
    with value 30: afterwards the entry reads 33, at its old place. *)
Lemma put_existing_key_overwrites_witness :
  Inv Demo.three /\ consistent Demo.three /\ 3 <> NULL /\
  {| key := 3; value := 30 |} ∈ entries Demo.three /\
  holds Demo.three 3 {| key := 3; value := 30 |} /\
  exists m',
    mapPut (Some Demo.three) 3 33 [] = (true, Some m', [Demo.ValueFreed 30]) /\
    size m' = 3 /\
    key <$> entries m' = [4; 3; 1] /\
    buckets m' = [ [ {| key := 4; value := 40 |} ];
                   [ {| key := 3; value := 33 |}; {| key := 1; value := 10 |} ] ] /\
    mapGet (Some m') 3 = 33 /\
    mapContains (Some m') 3 = true.
Proof.
  assert (3 <> NULL) as Hk by discriminate.
  assert ({| key := 3; value := 30 |} ∈ entries Demo.three) as He
    by (apply list_elem_of_In; simpl; tauto).
  assert (holds Demo.three 3 {| key := 3; value := 30 |}) as Hke by reflexivity.
  split; [exact three_Inv|]. split; [exact three_consistent|].
  split; [exact Hk|]. split; [exact He|]. split; [exact Hke|].
  destruct (put_existing_key_overwrites Demo.three 3 33 [] _
              three_Inv three_consistent Hk He Hke)
    as (c1 & c2 & m' & Hb & _ & Hput & Hsize & Hkeys & _ & Hbs & _ & _ & _ &
        _ & Hget & Hcont & _).
  exists m'. split; [exact Hput|]. split; [exact Hsize|]. split; [exact Hkeys|].
  split; [|split; [exact Hget | exact Hcont]].
  rewrite Hbs.
  assert (c1 = [] /\ c2 = [ {| key := 1; value := 10 |} ]) as [-> ->].
  { change (bucket Demo.three (index Demo.three 3))
      with ([ {| key := 3; value := 30 |}; {| key := 1; value := 10 |} ]) in Hb.
    destruct c1 as [|x [|y c1]]; simplify_eq/=; done. }
  reflexivity.
Defined.

(** C5 at: the table of three entries asked to shrink to 2 buckets. *)
Lemma resize_rejection_witness :
  (2 = 0 \/ 2 < size Demo.three) /\
  mapResize (Some Demo.three) 2 [] = (false, Some Demo.three, []).
Proof.
  assert (2 = 0 \/ 2 < size Demo.three) as Hn by (right; reflexivity).
  split; [exact Hn|].
  exact (proj1 (resize_rejection Demo.three 2 [] Hn)).
Defined.

(** C6 at: key 1, the second entry of its chain, removed from the table of
    three entries. *)
Lemma remove_present_or_absent_witness :
  Inv Demo.three /\ consistent Demo.three /\ 1 <> NULL /\
  ((mapRemove (Some Demo.three) 1 []).1.1 = true <->
   exists e, e ∈ entries Demo.three /\ holds Demo.three 1 e).
Proof.
  assert (1 <> NULL) as Hk by discriminate.
  split; [exact three_Inv|]. split; [exact three_consistent|].
  split; [exact Hk|].
  pose proof (remove_present_or_absent Demo.three 1 []
                three_Inv three_consistent Hk) as Hw.
  cbv zeta in Hw. exact (proj1 Hw).
Defined.

(** C7 at: the table of three entries cleared. *)
Lemma clear_resets_witness :
  live Demo.three /\
  exists m',
    (mapClear (Some Demo.three) []).1 = Some m' /\
    mapSize (Some m') = 0 /\
    capacity m' = 2 /\
    forall k, mapContains (Some m') k = false.
Proof.
  split; [exact (inv_live _ three_Inv)|].
  destruct (clear_resets Demo.three [] (inv_live _ three_Inv))
    as (m' & Heq & Hsize & Hget & Hcap & _).
  exists m'. split; [by rewrite Heq|]. split; [exact Hsize|].
  split; [exact Hcap|]. intros k. exact (proj1 (Hget k)).
Defined.

(** C8 at: the table of three entries, reached by a create and three puts. *)
Lemma reachable_entries_placed_witness :
  reachable Demo.three /\
  live Demo.three /\
  forall i c e, buckets Demo.three !! i = Some c -> e ∈ c ->
    N.to_nat (hash Demo.three (key e) mod capacity Demo.three) = i.
Proof.
  split; [exact three_reachable|].
  exact (reachable_entries_placed Demo.three three_reachable).
Defined.

(** C10 at: [NULL] stored under key 1 in the empty table; key 2 is absent. *)
Lemma null_value_reads_as_absent_witness :
  Inv Demo.fresh /\
  key_contract (hash Demo.fresh) (compare Demo.fresh) /\
  mapPut (Some Demo.fresh) 1 NULL [] =
    (true, Some Demo.one_null, [Demo.Allocated EntryBlock]) /\
  mapSize (Some Demo.one_null) = 1 /\
  mapGet (Some Demo.one_null) 1 = NULL /\
  mapContains (Some Demo.one_null) 1 = false /\
  mapGet (Some Demo.one_null) 2 = NULL.
Proof.
  assert (mapPut (Some Demo.fresh) 1 NULL [] =
          (true, Some Demo.one_null, [Demo.Allocated EntryBlock])) as Hput
    by reflexivity.
  split; [exact fresh_Inv|]. split; [exact addr_contract|].
  split; [exact Hput|].
  destruct (null_value_reads_as_absent Demo.fresh 1 [] Demo.one_null
              [Demo.Allocated EntryBlock] fresh_Inv addr_contract Hput)
    as (_ & Hsize & _ & Hget & Hcontains & Habsent).
  split; [by rewrite Hsize|]. split; [exact Hget|]. split; [exact Hcontains|].
  apply Habsent. repeat constructor. discriminate.
Defined.

(** * Further properties of the operations *)

Section Creation.
Context {W : Type} `{Allocator W}.
Implicit Types (m : @Map W) (k v : ptr) (e : MapEntry) (w : W).

(** X1. [mapCreate] returns the null reference exactly when the capacity
    is 0 or one of its two allocations fails. Nothing is kept in either
    case: the world is untouched when the capacity is 0 or the struct
    cannot be allocated, and the struct is freed again when the bucket
    array cannot. *)
Theorem create_fails_cleanly n h cmp fk fv w :
  ((mapCreate n h cmp fk fv w).1 = None <->
     n = 0 \/ alloc MapBlock w = None \/
     exists w1, alloc MapBlock w = Some w1 /\ alloc (BucketsBlock n) w1 = None) /\
  (n = 0 \/ alloc MapBlock w = None -> mapCreate n h cmp fk fv w = (None, w)) /\
  (forall w1, n <> 0 -> alloc MapBlock w = Some w1 ->
     alloc (BucketsBlock n) w1 = None ->
     mapCreate n h cmp fk fv w = (None, release MapBlock w1)).
Proof.
  unfold mapCreate. destruct (N.eqb_spec n 0) as [Hn | Hn].
  { split; [split; auto|]. split; [done|]. by intros w1 ?. }
  destruct (alloc MapBlock w) as [w1|] eqn:Hw1.
  - destruct (alloc (BucketsBlock n) w1) as [w2|] eqn:Hw2; simpl.
    + split; [|split].
      * split; [done|]. intros [? | [? | (w1' & [= <-] & ?)]]; congruence.
      * intros [? | ?]; congruence.
      * intros w1' _ [= <-] ?. congruence.
    + split; [|split].
      * split; [|done]. intros _. right. right. by exists w1.
      * intros [? | ?]; congruence.
      * by intros w1' _ [= <-] _.
  - split; [split; auto|]. split; [done|]. by intros w1 ? ?.
Qed.

(** X2. A table that [mapCreate] returns is empty and ready: its capacity
    is the requested one (at least 1), its size is 0, it has no entry,
    [mapGet] returns [NULL] and [mapContains] false for every key,
    [mapRemove] fails for every key, the invariant holds, an absent release
    hook stands for the hook that does nothing, and the world has seen the
    two allocations only. *)
Theorem create_gives_empty_table n h cmp fk fv w m w' :
  mapCreate n h cmp fk fv w = (Some m, w') ->
  capacity m = n /\ 1 <= n /\
  mapSize (Some m) = 0 /\ entries m = [] /\
  (forall k, mapGet (Some m) k = NULL /\ mapContains (Some m) k = false) /\
  (forall k w2, mapRemove (Some m) k w2 = (false, Some m, w2)) /\
  Inv m /\
  hash m = h /\ compare m = cmp /\
  freeKey m = default noFree fk /\ freeValue m = default noFree fv /\
  exists w1, alloc MapBlock w = Some w1 /\ alloc (BucketsBlock n) w1 = Some w'.
Proof.
  intros Hc.
  destruct (Inv_create _ _ _ _ _ _ _ _ Hc)
    as (Hinv & Hnil & Hcap & Hsize & Hhash & Hcmp & Hfk & Hfv).
  assert (1 <= n) as Hn by (rewrite <- Hcap; apply Hinv).
  assert (forall k, bucket m (index m k) = []) as Hb.
  { intros k. pose proof (entries_split m k (inv_live _ Hinv)) as Hs.
    rewrite Hnil in Hs. symmetry in Hs.
    apply app_eq_nil in Hs as [_ Hs]. by apply app_eq_nil in Hs as [Hs _]. }
  assert (forall k, mapGet (Some m) k = NULL) as Hget.
  { intros k. unfold mapGet. destruct (k =? NULL); [done|].
    fold (index m k). by rewrite Hb. }
  do 4 (split; [done|]). split; [|split].
  - intros k. unfold mapContains. by rewrite Hget.
  - intros k w2. unfold mapRemove. destruct (k =? NULL); [done|].
    fold (index m k). by rewrite Hb.
  - do 5 (split; [done|]). unfold mapCreate in Hc.
    destruct (n =? 0); [done|].
    destruct (alloc MapBlock w) as [w1|]; [|done].
    destruct (alloc (BucketsBlock n) w1) as [w2|] eqn:Hw2; [|done].
    injection Hc as _ <-. by exists w1.
Qed.

End Creation.

Lemma create_gives_empty_table_witness :
  mapCreate 2 Demo.addrHash Demo.addrCompare (Some Demo.logKey) (Some Demo.logValue) []
    = (Some Demo.fresh, [Demo.Allocated (BucketsBlock 2); Demo.Allocated MapBlock]) /\
  mapSize (Some Demo.fresh) = 0 /\
  forall k, mapGet (Some Demo.fresh) k = NULL /\ mapContains (Some Demo.fresh) k = false.
Proof.
  split; [exact fresh_created|].
  destruct (create_gives_empty_table _ _ _ _ _ _ _ _ fresh_created)
    as (_ & _ & Hsize & _ & Hget & _).
  split; [exact Hsize | exact Hget].
Defined.

Section CallFacts.
Context {W : Type} `{Allocator W}.
Implicit Types (m : @Map W) (k v : ptr) (e : MapEntry) (w : W).

(** X3. A call that reports failure has changed nothing: [mapPut],
    [mapRemove] and [mapResize] returning false hand back the very table
    and the very world they were given. *)
Theorem failed_call_changes_nothing m k v n w :
  (forall map' w', mapPut (Some m) k v w = (false, map', w') ->
     map' = Some m /\ w' = w) /\
  (forall map' w', mapRemove (Some m) k w = (false, map', w') ->
     map' = Some m /\ w' = w) /\
  (forall map' w', mapResize (Some m) n w = (false, map', w') ->
     map' = Some m /\ w' = w).
Proof.
  split; [|split]; intros map' w' Heq.
  - by apply mapPut_false in Heq.
  - by apply mapRemove_false in Heq.
  - by apply mapResize_failure in Heq.
Qed.

(** X4. A key with a null address is rejected by every operation that
    takes a key, whatever the table holds: [mapPut] and [mapRemove] report
    failure and change nothing, [mapGet] returns [NULL] and [mapContains]
    false; the injected functions are not consulted. *)
Theorem null_key_rejected (map : option (@Map W)) v w :
  mapPut map NULL v w = (false, map, w) /\
  mapRemove map NULL w = (false, map, w) /\
  mapGet map NULL = NULL /\
  mapContains map NULL = false.
Proof. by destruct map. Qed.

(** X5. [mapPut] fails in two cases only: the key is null, or no entry
    holds the key and the entry cannot be allocated. In particular an
    overwrite never fails for lack of memory. *)
Theorem put_fails_iff m k v w :
  Inv m -> consistent m ->
  ((mapPut (Some m) k v w).1.1 = false <->
     k = NULL \/
     (Forall (fun e => ~ holds m k e) (entries m) /\ alloc EntryBlock w = None)).
Proof.
  intros Hinv Hh. pose proof Hinv as [Hm Hp _ _].
  destruct (mapPut_outcome m k v w)
    as [Hk | c1 e c2 Hk Hb Hc1 He | Hk Hb Ha | w' Hk Hb Ha]; simpl.
  - split; auto.
  - split; [done|]. intros [? | [Habs _]]; [done|].
    rewrite Forall_forall in Habs. exfalso. apply (Habs e); [|done].
    rewrite (entries_split m k Hm), Hb.
    apply elem_of_app. right. apply elem_of_app. left.
    apply elem_of_app. right. apply elem_of_cons. by left.
  - split; [|done]. intros _. right. split; [|done].
    by apply absent_everywhere.
  - split; [done|]. intros [? | [_ ?]]; congruence.
Qed.

(** X6. [mapPut] of a non-null key that no entry holds, when the entry can
    be allocated: the new entry, with the key and the value given, becomes
    the head of its bucket's chain, every other bucket is as before, the
    size is incremented and the capacity is unchanged (the table never
    grows by itself); nothing is released. *)
Theorem put_absent_key m k v w w' :
  live m -> k <> NULL ->
  Forall (fun e => ~ holds m k e) (entries m) ->
  alloc EntryBlock w = Some w' ->
  exists m',
    mapPut (Some m) k v w = (true, Some m', w') /\
    bucket m' (index m k) = {| key := k; value := v |} :: bucket m (index m k) /\
    (forall i, i <> index m k -> bucket m' i = bucket m i) /\
    entries m' ≡ₚ {| key := k; value := v |} :: entries m /\
    size m' = size_t_inc (size m) /\
    capacity m' = capacity m.
Proof.
  intros Hm Hk Habs Ha.
  assert (Forall (fun e => ~ holds m k e) (bucket m (index m k))) as Hb.
  { rewrite (entries_split m k Hm) in Habs.
    apply Forall_app in Habs as [_ Habs]. by apply Forall_app in Habs as [Habs _]. }
  eexists. split; [|split; [|split; [|split]]].
  - unfold mapPut. destruct (N.eqb_spec k NULL); [done|].
    fold (index m k). by rewrite put_loop_miss, Ha.
  - unfold bucket. simpl.
    apply list_lookup_total_insert_eq. by apply index_in_range.
  - intros i Hi. unfold bucket. simpl.
    apply list_lookup_total_insert_ne. intros Heq. apply Hi.
    by apply N2Nat.inj.
  - change (entries (set_size ?a _)) with (entries a).
    rewrite entries_set_bucket, (entries_split m k) by done.
    simpl. symmetry. apply Permutation_middle.
  - done.
Qed.

(** X7. [mapResize] succeeds exactly when the new capacity is not 0, is
    not below the size, and the new bucket array can be allocated. *)
Theorem resize_succeeds_iff m n w :
  (mapResize (Some m) n w).1.1 = true <->
  n <> 0 /\ size m <= n /\ is_Some (alloc (BucketsBlock n) w).
Proof.
  unfold mapResize. destruct (N.eqb_spec n 0) as [Hn | Hn]; simpl.
  { split; [done|]. by intros [? _]. }
  destruct (N.ltb_spec n (size m)) as [Hlt | Hge]; simpl.
  { split; [done|]. intros (_ & ? & _). lia. }
  destruct (alloc (BucketsBlock n) w) as [w1|]; simpl.
  - split; [|done]. intros _. by repeat split; eauto.
  - split; [done|]. by intros (_ & _ & [? ?]).
Qed.

(** X8. The capacity changes by a successful [mapResize] only. After a
    [mapResize] that reports success the capacity is the one asked for,
    which is then neither 0 nor below the size; after a [mapResize] that
    reports failure the table and the world are what they were, the
    capacity with them; and after any other call the capacity is what it
    was. *)
Theorem capacity_changes_only_by_resize m c w m' w' :
  run c (Some m) w = (Some m', w') ->
  match c with
  | Resize n =>
    if (mapResize (Some m) n w).1.1
    then capacity m' = n /\ n <> 0 /\ size m <= n /\
         is_Some (alloc (BucketsBlock n) w)
    else capacity m' = capacity m /\ m' = m /\ w' = w
  | _ => capacity m' = capacity m
  end.
Proof.
  intros Hrun. destruct c as [k v | k | k | k | | | n];
    try (injection Hrun as <- <-; done).
  - apply run_put in Hrun as [ok Hrun].
    pose proof (mapPut_outcome m k v w) as Ho. rewrite Hrun in Ho.
    inversion Ho; by subst.
  - apply run_remove in Hrun as [ok Hrun].
    pose proof (mapRemove_outcome m k w) as Ho. rewrite Hrun in Ho.
    inversion Ho; by subst.
  - apply run_resize in Hrun as [ok Hrun]. rewrite Hrun. simpl.
    unfold mapResize in Hrun.
    destruct (N.eqb_spec n 0) as [Hn | Hn]; simpl in Hrun.
    { by injection Hrun as <- <- <-. }
    destruct (N.ltb_spec n (size m)) as [Hlt | Hge]; simpl in Hrun.
    { by injection Hrun as <- <- <-. }
    destruct (alloc _ w) as [w1|] eqn:Ha.
    + injection Hrun as <- <- _. by repeat split; eauto.
    + by injection Hrun as <- <- <-.
Qed.

(** X9. What [mapGet] and [mapContains] answer, in terms of the entries:
    for a non-null key, [mapGet] returns the value of the entry holding the
    key and [NULL] when there is none, and [mapContains] is true exactly
    when an entry holds the key with a value that is not [NULL]. *)
Theorem lookup_reads_the_entry m k :
  Inv m -> consistent m -> k <> NULL ->
  (forall e, e ∈ entries m -> holds m k e -> mapGet (Some m) k = value e) /\
  (Forall (fun e => ~ holds m k e) (entries m) -> mapGet (Some m) k = NULL) /\
  (mapContains (Some m) k = true <->
     exists e, e ∈ entries m /\ holds m k e /\ value e <> NULL).
Proof.
  intros Hinv Hh Hk. split; [|split].
  - intros e He Hke. by apply stored_value_read.
  - by apply absent_value_read.
  - unfold mapContains.
    destruct (first_split (holds m k) (entries m))
      as [Habs | (l1 & e & l2 & Hl & _ & Hke)].
    + rewrite (absent_value_read m k Hinv Hh Habs). split; [done|].
      intros (e & He & Hke & _). rewrite Forall_forall in Habs.
      by destruct (Habs e He).
    + assert (e ∈ entries m) as He.
      { rewrite Hl. apply elem_of_app. right. apply elem_of_cons. by left. }
      rewrite (stored_value_read m k e Hinv Hh Hk He Hke). split.
      * intros Hv. exists e. repeat split; try done.
        intros Hnull. by rewrite Hnull in Hv.
      * intros (e' & He' & Hke' & Hv').
        assert (e' = e) as ->.
        { pose proof (filter_unique m k e (inv_unique _ Hinv) He Hke) as Hf.
          assert (e' ∈ filter (holds m k) (entries m)) as Hin
            by (by apply list_elem_of_filter).
          rewrite Hf in Hin. by apply list_elem_of_singleton in Hin. }
        by destruct (N.eqb_spec (value e) NULL).
Qed.

(** X10. A call that neither stores under a key equal to [k], nor removes
    such a key, nor clears the table leaves the answers for [k] alone:
    [mapGet] and [mapContains] of [k] are the same after it, whether it
    succeeded or not. This covers puts and removes of other keys, resizes
    and the queries. *)
Theorem other_keys_untouched m k c w map' w' :
  Inv m -> key_contract (hash m) (compare m) ->
  leaves (compare m) k c ->
  run c (Some m) w = (map', w') ->
  mapGet map' k = mapGet (Some m) k /\
  mapContains map' k = mapContains (Some m) k.
Proof.
  intros Hinv Hkc Hl Hrun.
  destruct (run_leaves _ _ _ _ _ _ Hinv Hkc Hl Hrun)
    as (m' & -> & Hinv' & (Hhash & Hcmp & _) & Hf).
  assert (mapGet (Some m') k = mapGet (Some m) k) as Hget.
  { destruct (decide (k = NULL)) as [-> | Hk]; [done|].
    rewrite !mapGet_entries; try done; try apply Hinv; try apply Hinv'.
    - by rewrite (filter_holds_same m m'), Hf.
    - apply Hkc.
    - intros a b. rewrite Hhash, Hcmp. apply Hkc. }
  split; [done|]. unfold mapContains. by rewrite Hget.
Qed.

(** X11. After a successful [mapRemove] of [k], the key is gone for good:
    [mapGet] returns [NULL] and [mapContains] false for [k] and for every
    key equal to it. *)
Theorem removed_key_is_absent m k w m' w' k' :
  Inv m -> key_contract (hash m) (compare m) ->
  mapRemove (Some m) k w = (true, Some m', w') ->
  compare m k k' = 0%Z ->
  mapGet (Some m') k' = NULL /\ mapContains (Some m') k' = false.
Proof.
  intros Hinv Hkc Hrem Hkk'. pose proof Hkc as [Hrefl Hsym Htrans Hh].
  pose proof (mapRemove_outcome m k w) as Ho. rewrite Hrem in Ho.
  destruct (Inv_remove _ _ _ _ Hinv Ho) as (m1 & [= <-] & Hinv' & (Hhash & Hcmp & _)).
  pose proof (remove_gone _ _ _ _ _ Hinv Hh Hrem) as Hgone.
  assert (mapGet (Some m') k' = NULL) as Hget.
  { apply absent_value_read; [done| |].
    - intros a b. rewrite Hhash, Hcmp. apply Hh.
    - rewrite Forall_forall in Hgone |- *. intros x Hx Hxk'.
      apply (Hgone x Hx). unfold holds in *. rewrite Hcmp in Hxk'. eauto. }
  split; [done|]. unfold mapContains. by rewrite Hget.
Qed.

(** X22. Storing a key that no entry holds and removing it again gives
    back the very table: same chains in the same order, same size, same
    capacity. The world has seen the allocation of the entry, then the
    release of the key, of the value and of the entry. *)
Theorem put_then_remove_restores m k v w w' :
  Inv m -> compare m k k = 0%Z -> k <> NULL ->
  Forall (fun e => ~ holds m k e) (entries m) ->
  alloc EntryBlock w = Some w' ->
  exists m',
    mapPut (Some m) k v w = (true, Some m', w') /\
    mapRemove (Some m') k w' =
      (true, Some m, release EntryBlock (freeValue m v (freeKey m k w'))).
Proof.
  intros Hinv Hrefl Hk Habs Ha. pose proof (inv_live _ Hinv) as Hm.
  assert (Forall (fun e => ~ holds m k e) (bucket m (index m k))) as Hb.
  { rewrite (entries_split m k Hm) in Habs.
    apply Forall_app in Habs as [_ Habs]. by apply Forall_app in Habs as [Habs _]. }
  eexists. split.
  - unfold mapPut. destruct (N.eqb_spec k NULL); [done|].
    fold (index m k). by rewrite put_loop_miss, Ha.
  - unfold mapRemove. destruct (N.eqb_spec k NULL); [done|].
    simpl hash. simpl capacity. fold (index m k).
    assert (bucket (set_size
                      (set_bucket m (index m k)
                         ({| key := k; value := v |} :: bucket m (index m k)))
                      (size_t_inc (size m))) (index m k) =
            [] ++ {| key := k; value := v |} :: bucket m (index m k)) as ->.
    { unfold bucket. simpl.
      apply list_lookup_total_insert_eq. by apply index_in_range. }
    rewrite remove_loop_hit by done. simpl. f_equal. f_equal. f_equal.
    assert (size_t_dec (size_t_inc (size m)) = size m) as Hround.
    { rewrite (inv_counted _ Hinv).
      by rewrite size_t_inc_wrap, size_t_dec_wrap. }
    assert (<[N.to_nat (index m k) := bucket m (index m k)]>
              (<[N.to_nat (index m k) :=
                   {| key := k; value := v |} :: bucket m (index m k)]>
                 (buckets m)) = buckets m) as Hbs.
    { rewrite list_insert_insert_eq. apply list_insert_id.
      by apply bucket_lookup. }
    unfold set_size, set_bucket. simpl. rewrite Hround, Hbs. by destruct m.
Qed.

End CallFacts.

Section ReachableTables.
Context {W : Type} `{Allocator W}.
Implicit Types (m : @Map W) (k v : ptr) (e : MapEntry) (w : W).

Lemma filter_short_positions {A} (P : A -> Prop) `{forall x, Decision (P x)}
    (l : list A) i j x y :
  (length (filter P l) <= 1)%nat ->
  l !! i = Some x -> l !! j = Some y -> P x -> P y -> i = j.
Proof.
  revert i j. induction l as [|z l IH]; intros i j Hlen Hi Hj Hx Hy; [done|].
  assert (forall n a, l !! n = Some a -> P a -> filter P l <> []) as Hne.
  { intros n a Hn Ha Hnil.
    assert (a ∈ filter P l) as Hin.
    { apply list_elem_of_filter. split; [done|]. by eapply list_elem_of_lookup_2. }
    rewrite Hnil in Hin. by apply elem_of_nil in Hin. }
  destruct i as [|i], j as [|j]; simpl in Hi, Hj; simplify_eq; [done| | |].
  - rewrite filter_cons_True in Hlen by done. simpl in Hlen.
    destruct (filter P l) eqn:Hf; [|simpl in Hlen; lia].
    by destruct (Hne j y Hj Hy).
  - rewrite filter_cons_True in Hlen by done. simpl in Hlen.
    destruct (filter P l) eqn:Hf; [|simpl in Hlen; lia].
    by destruct (Hne i x Hi Hx).
  - f_equal. apply IH; try done.
    destruct (decide (P z)).
    + rewrite filter_cons_True in Hlen by done. simpl in Hlen. lia.
    + by rewrite filter_cons_False in Hlen.
Qed.

(** X12. In every table reachable from [mapCreate] through the API, with
    an injected equality that is an equivalence respected by the hash:
    [mapSize] is the number of entries (as a [size_t]) and no two entries
    have equal keys. *)
Theorem reachable_size_and_unique_keys m :
  reachable m -> key_contract (hash m) (compare m) ->
  mapSize (Some m) = to_size_t (N.of_nat (length (entries m))) /\
  forall i j e1 e2,
    entries m !! i = Some e1 -> entries m !! j = Some e2 ->
    compare m (key e1) (key e2) = 0%Z -> i = j.
Proof.
  intros Hr Hkc. destruct (reachable_Inv m Hr Hkc) as [_ _ Hu Hc].
  split; [exact Hc|]. intros i j e1 e2 Hi Hj Heq.
  apply (filter_short_positions (holds m (key e2)) (entries m) i j e1 e2);
    try done.
  unfold holds. apply Hkc.
Qed.

(** X13. No reachable table has an entry with a null key, whatever the
    injected functions are: so the hash, the comparison and the key release
    hook are never handed [NULL] as a stored key. *)
Theorem reachable_keys_not_null m :
  reachable m -> Forall (fun e => key e <> NULL) (entries m).
Proof.
  intros Hr.
  cut (live m /\ Forall (fun e => key e <> NULL) (entries m)); [by intros [_ ?]|].
  induction Hr as [n h cmp fk fv w m w' Hc | m c w m' w' Hr [Hm Hk] Hrun].
  - apply Inv_create in Hc as ([Hm _ _ _] & Hnil & _). by rewrite Hnil.
  - destruct c as [k v | k | k | k | | | n];
      try (injection Hrun as <- <-; done).
    + apply run_put in Hrun as [ok Hrun].
      pose proof (mapPut_outcome m k v w) as Ho. rewrite Hrun in Ho.
      pose proof Hk as Hk0. rewrite (entries_split m k Hm) in Hk.
      apply Forall_app in Hk as [Hk1 Hk2]. apply Forall_app in Hk2 as [Hk2 Hk3].
      inversion Ho as [ | c1 e c2 Hnn Hb Hc1 He | | w1 Hnn Hb Ha ]; subst.
      * done.
      * split; [by apply live_set_bucket|].
        rewrite entries_set_bucket by done. rewrite Hb in Hk2.
        apply Forall_app in Hk2 as [Hc1' Hc2']. apply Forall_cons in Hc2' as [He' Hc2'].
        repeat apply Forall_app_2; try done. by constructor.
      * done.
      * split; [by apply live_set_size, live_set_bucket|].
        change (entries (set_size ?a _)) with (entries a).
        rewrite entries_set_bucket by done.
        repeat apply Forall_app_2; try done. by constructor.
    + apply run_remove in Hrun as [ok Hrun].
      pose proof (mapRemove_outcome m k w) as Ho. rewrite Hrun in Ho.
      inversion Ho as [ | | c1 e c2 Hnn Hb Hc1 He ]; subst; try done.
      split; [by apply live_set_size, live_set_bucket|].
      change (entries (set_size ?a _)) with (entries a).
      rewrite entries_set_bucket by done.
      rewrite (entries_split m k Hm), Hb in Hk.
      apply Forall_app in Hk as [Hk1 Hk2]. apply Forall_app in Hk2 as [Hk2 Hk3].
      apply Forall_app in Hk2 as [Hc1' Hc2']. apply Forall_cons in Hc2' as [He' Hc2'].
      by repeat apply Forall_app_2.
    + rewrite run_clear in Hrun.
      destruct (Inv_clear m w Hm) as (m1 & Heq & [Hm1 _ _ _] & _ & _ & _ & Hnil).
      rewrite Hrun in Heq. simpl in Heq. injection Heq as <-. by rewrite Hnil.
    + apply run_resize in Hrun as [[|] Hrun].
      * apply shape_resize in Hrun
          as (m1 & ? & [= <-] & Hm1 & _ & _ & _ & _ & Hperm & _); [|done].
        split; [done|]. by rewrite Hperm.
      * by apply mapResize_failure in Hrun as [[= <-] _].
Qed.

End ReachableTables.

(** ** Memory: what is allocated is released *)

Section Accounting.
Context {W : Type} `{Allocator W}.
Implicit Types (m : @Map W) (k v : ptr) (e : MapEntry) (w : W).

(** A count of the blocks outstanding in a world: up by one at each
    successful allocation, down by one at each release. *)
Variable blocks : W -> Z.
Hypothesis blocks_alloc :
  forall b w w', alloc b w = Some w' -> blocks w' = (blocks w + 1)%Z.
Hypothesis blocks_release :
  forall b w, blocks (release b w) = (blocks w - 1)%Z.

Lemma free_chain_blocks m (c : list MapEntry) w :
  (forall p w, blocks (freeKey m p w) = blocks w) ->
  (forall p w, blocks (freeValue m p w) = blocks w) ->
  blocks (free_chain m c w) = (blocks w - Z.of_nat (length c))%Z.
Proof.
  intros Hfk Hfv. revert w. induction c as [|e c IH]; intros w; simpl; [lia|].
  rewrite IH, blocks_release, Hfv, Hfk. lia.
Qed.

Lemma clear_blocks m (bs : list (list MapEntry)) w :
  (forall p w, blocks (freeKey m p w) = blocks w) ->
  (forall p w, blocks (freeValue m p w) = blocks w) ->
  blocks (foldl (fun w c => free_chain m c w) w bs) =
    (blocks w - Z.of_nat (length (concat bs)))%Z.
Proof.
  intros Hfk Hfv. revert w. induction bs as [|c bs IH]; intros w; simpl; [lia|].
  rewrite IH, free_chain_blocks, length_app by done. lia.
Qed.

Lemma run_blocks m c w map' w' :
  live m ->
  (forall p w, blocks (freeKey m p w) = blocks w) ->
  (forall p w, blocks (freeValue m p w) = blocks w) ->
  run c (Some m) w = (map', w') ->
  exists m', map' = Some m' /\ live m' /\ same_functions m m' /\
    (blocks w' - Z.of_nat (length (entries m')) =
     blocks w - Z.of_nat (length (entries m)))%Z.
Proof.
  intros Hm Hfk Hfv Hrun.
  destruct c as [k v | k | k | k | | | n];
    try (injection Hrun as <- <-; exists m; by auto using same_functions_refl).
  - apply run_put in Hrun as [ok Hrun].
    pose proof (mapPut_outcome m k v w) as Ho. rewrite Hrun in Ho.
    inversion Ho as [ | c1 e c2 Hk Hb Hc1 He | | w1 Hk Hb Ha ]; subst;
      try (exists m; by auto using same_functions_refl).
    + eexists. split; [done|]. split; [by apply live_set_bucket|].
      split; [by repeat split|].
      rewrite entries_set_bucket, (entries_split m k), Hb by done.
      rewrite Hfv, !length_app. simpl. lia.
    + eexists. split; [done|].
      split; [by apply live_set_size, live_set_bucket|].
      split; [by repeat split|].
      change (entries (set_size ?a _)) with (entries a).
      rewrite entries_set_bucket, (entries_split m k) by done.
      rewrite (blocks_alloc _ _ _ Ha), !length_app. simpl. lia.
  - apply run_remove in Hrun as [ok Hrun].
    pose proof (mapRemove_outcome m k w) as Ho. rewrite Hrun in Ho.
    inversion Ho as [ | | c1 e c2 Hk Hb Hc1 He ]; subst;
      try (exists m; by auto using same_functions_refl).
    eexists. split; [done|].
    split; [by apply live_set_size, live_set_bucket|].
    split; [by repeat split|].
    change (entries (set_size ?a _)) with (entries a).
    rewrite entries_set_bucket, (entries_split m k), Hb by done.
    rewrite blocks_release, Hfv, Hfk, !length_app. simpl. lia.
  - rewrite run_clear, mapClear_live in Hrun by done.
    injection Hrun as <- <-. eexists. split; [done|].
    split; [|split; [by repeat split|]].
    + destruct Hm as [? Hlen]. split; simpl; [done|]. by rewrite length_replicate.
    + unfold entries at 1. simpl.
      rewrite concat_replicate_nil, clear_blocks by done.
      unfold entries. simpl. lia.
  - apply run_resize in Hrun as [[|] Hrun].
    + apply shape_resize in Hrun
        as (m1 & w1 & -> & Hm1 & _ & Hsame & _ & _ & Hperm & _ & _ & Ha & ->);
        [|done].
      exists m1. do 3 (split; [done|]).
      rewrite blocks_release, (blocks_alloc _ _ _ Ha), Hperm. lia.
    + apply mapResize_failure in Hrun as [-> ->].
      exists m. auto using same_functions_refl.
Qed.

Lemma run_all_blocks cs : forall m w map' w',
  live m ->
  (forall p w, blocks (freeKey m p w) = blocks w) ->
  (forall p w, blocks (freeValue m p w) = blocks w) ->
  run_all cs (Some m) w = (map', w') ->
  exists m', map' = Some m' /\ live m' /\ same_functions m m' /\
    (blocks w' - Z.of_nat (length (entries m')) =
     blocks w - Z.of_nat (length (entries m)))%Z.
Proof.
  induction cs as [|c cs IH]; intros m w map' w' Hm Hfk Hfv Hrun.
  - injection Hrun as <- <-. exists m. auto using same_functions_refl.
  - simpl in Hrun. destruct (run c (Some m) w) as [map1 w1] eqn:Hc.
    destruct (run_blocks _ _ _ _ _ Hm Hfk Hfv Hc)
      as (m1 & -> & Hm1 & Hsame1 & Hb1).
    pose proof Hsame1 as (_ & _ & Hk1 & Hv1).
    destruct (IH m1 w1 map' w' Hm1) as (m2 & -> & Hm2 & Hsame2 & Hb2); auto.
    + intros p w0. by rewrite Hk1.
    + intros p w0. by rewrite Hv1.
    + exists m2. do 2 (split; [done|]).
      split; [by eapply same_functions_trans|]. lia.
Qed.

Lemma created_hooks_quiet n h cmp fk fv w0 m0 w1 :
  (forall f, fk = Some f \/ fv = Some f -> forall p w, blocks (f p w) = blocks w) ->
  mapCreate n h cmp fk fv w0 = (Some m0, w1) ->
  (forall p w, blocks (freeKey m0 p w) = blocks w) /\
  (forall p w, blocks (freeValue m0 p w) = blocks w).
Proof.
  intros Hq Hc.
  apply Inv_create in Hc as (_ & _ & _ & _ & _ & _ & -> & ->).
  split; intros p w.
  - destruct fk as [f|]; simpl; [apply Hq; by left | done].
  - destruct fv as [f|]; simpl; [apply Hq; by right | done].
Qed.

(** X14. From [mapCreate] on, through any calls, the blocks the library
    holds are the table struct, the bucket array and one block per entry:
    the count of outstanding blocks is 2 plus the number of entries above
    what it was before the table was created. The release hooks are assumed
    not to allocate or free blocks of their own account. *)
Theorem blocks_held_are_entries_plus_two n h cmp fk fv w0 m0 w1 cs m w :
  (forall f, fk = Some f \/ fv = Some f -> forall p w, blocks (f p w) = blocks w) ->
  mapCreate n h cmp fk fv w0 = (Some m0, w1) ->
  run_all cs (Some m0) w1 = (Some m, w) ->
  blocks w = (blocks w0 + 2 + Z.of_nat (length (entries m)))%Z.
Proof.
  intros Hq Hc Hrun.
  destruct (created_hooks_quiet _ _ _ _ _ _ _ _ Hq Hc) as [Hfk Hfv].
  pose proof (Inv_create _ _ _ _ _ _ _ _ Hc) as ([Hm0 _ _ _] & Hnil & _).
  destruct (run_all_blocks _ _ _ _ _ Hm0 Hfk Hfv Hrun)
    as (m' & [= <-] & _ & _ & Hb).
  rewrite Hnil in Hb. simpl in Hb.
  unfold mapCreate in Hc. destruct (n =? 0); [done|].
  destruct (alloc MapBlock w0) as [wa|] eqn:Ha; [|done].
  destruct (alloc (BucketsBlock n) wa) as [wb|] eqn:Hb'; [|done].
  injection Hc as _ <-.
  rewrite (blocks_alloc _ _ _ Hb'), (blocks_alloc _ _ _ Ha) in Hb. lia.
Qed.


End Accounting.

(** ** The string functions *)

Section StringFacts.
Variable char_is_signed : bool.
Variable mem : ptr -> list Byte.byte.

Lemma byte_eqb_eq a b : Byte.eqb a b = true <-> a = b.
Proof. split; [apply Byte.byte_dec_bl | apply Byte.byte_dec_lb]. Qed.

Lemma byte_to_N_inj a b : Byte.to_N a = Byte.to_N b -> a = b.
Proof.
  intros Heq. pose proof (Byte.of_to_N a) as Ha. rewrite Heq, Byte.of_to_N in Ha.
  by injection Ha.
Qed.

Lemma byte_to_N_zero b : Byte.to_N b = 0 <-> b = Byte.x00.
Proof.
  split; [|by intros ->]. intros Hb. by apply byte_to_N_inj.
Qed.

Lemma char_to_int_zero b :
  (char_to_int char_is_signed b =? 0)%Z = Byte.eqb b Byte.x00.
Proof. by destruct char_is_signed, b. Qed.

Lemma stringHash_step (h c : N) :
  size_t_add (size_t_add (size_t_shl h 5) h) c = (h * 33 + c) mod SIZE_MODULUS.
Proof.
  unfold size_t_add, size_t_shl. rewrite N.shiftl_mul_pow2.
  rewrite N.Div0.add_mod_idemp_l, <- N.add_assoc, N.Div0.add_mod_idemp_l.
  f_equal. change (2 ^ 5) with 32. lia.
Qed.

Lemma stringHash_loop_fold (s : list Byte.byte) (h : N) :
  stringHash_loop char_is_signed s h =
    foldl (fun h b =>
             (h * 33 + int_to_size_t (char_to_int char_is_signed b)) mod SIZE_MODULUS)
          h (c_string s).
Proof.
  revert h. induction s as [|b s IH]; intros h; simpl; [done|].
  rewrite char_to_int_zero. destruct (Byte.eqb b Byte.x00); [done|].
  simpl. by rewrite IH, stringHash_step.
Qed.

Lemma strcmp_zero_iff (s1 s2 : list Byte.byte) :
  strcmp s1 s2 = 0%Z <-> c_string s1 = c_string s2.
Proof.
  revert s2. induction s1 as [|a s1 IH]; intros [|b s2]; simpl.
  - done.
  - destruct (Byte.eqb b Byte.x00) eqn:Hb.
    + apply byte_eqb_eq in Hb as ->. done.
    + split; [|done]. intros Hz.
      assert (Byte.to_N b = 0) as ->%byte_to_N_zero by lia.
      by rewrite (Byte.byte_dec_lb eq_refl) in Hb.
  - destruct (Byte.eqb a Byte.x00) eqn:Ha.
    + apply byte_eqb_eq in Ha as ->. done.
    + split; [|done]. intros Hz.
      assert (Byte.to_N a = 0) as ->%byte_to_N_zero by lia.
      by rewrite (Byte.byte_dec_lb eq_refl) in Ha.
  - destruct (Byte.eqb a b) eqn:Hab.
    + apply byte_eqb_eq in Hab as <-.
      destruct (Byte.eqb a Byte.x00); [done|].
      rewrite IH. split; [by intros -> | by intros [= ->]].
    + assert (a <> b) as Hne.
      { intros ->. by rewrite (Byte.byte_dec_lb eq_refl) in Hab. }
      split.
      * intros Hz. destruct Hne. apply byte_to_N_inj. lia.
      * destruct (Byte.eqb a Byte.x00) eqn:Ha, (Byte.eqb b Byte.x00) eqn:Hb;
          try done.
        -- apply byte_eqb_eq in Ha, Hb. congruence.
        -- intros [= -> _]. done.
Qed.

(** X16. [stringHash] is the djb2 hash of the characters before the
    terminator: starting from 5381, each character takes the hash to
    [hash * 33 + c] modulo [2^64] (the shift and add of the source). What
    follows the terminator plays no part, and the result is a [size_t]. *)
Theorem stringHash_is_djb2 key :
  stringHash char_is_signed mem key =
    foldl (fun h b =>
             (h * 33 + int_to_size_t (char_to_int char_is_signed b)) mod SIZE_MODULUS)
          5381 (c_string (mem key)) /\
  stringHash char_is_signed mem key < SIZE_MODULUS.
Proof.
  split; [apply stringHash_loop_fold|].
  unfold stringHash. rewrite stringHash_loop_fold.
  destruct (c_string (mem key)) as [|b s] using rev_ind; [done|].
  rewrite foldl_snoc. by apply N.mod_lt.
Qed.

(** X17. [stringCompare] returns 0 exactly when the two keys point to the
    same characters up to the terminator, wherever they are stored. *)
Theorem stringCompare_by_content key1 key2 :
  stringCompare mem key1 key2 = 0%Z <->
  c_string (mem key1) = c_string (mem key2).
Proof. apply strcmp_zero_iff. Qed.

Lemma string_contract :
  key_contract (stringHash char_is_signed mem) (stringCompare mem).
Proof.
  unfold stringCompare. split.
  - intros a. by apply strcmp_zero_iff.
  - intros a b Hab. apply strcmp_zero_iff. symmetry. by apply strcmp_zero_iff.
  - intros a b c Hab Hbc. apply strcmp_zero_iff.
    apply strcmp_zero_iff in Hab, Hbc. congruence.
  - intros a b Hab. apply strcmp_zero_iff in Hab.
    unfold stringHash. by rewrite !stringHash_loop_fold, Hab.
Qed.

(** X18. The two string functions meet the contract the table relies on:
    [stringCompare] returning 0 is an equivalence on keys, and keys that
    compare equal have the same [stringHash]. *)
Theorem string_functions_meet_contract :
  key_contract (stringHash char_is_signed mem) (stringCompare mem).
Proof. exact string_contract. Qed.

Context {W : Type} `{Allocator W}.
Variable free : @MapFree W.

(** X19. A string map finds a key by its characters, not by its address:
    in a table made by [mapCreateStringMap] and driven through any calls,
    after a successful [mapPut] of [v] under [k], [mapGet] under any
    non-null address holding the same characters returns [v]. Such a table
    releases keys and values with [free]. *)
Theorem string_map_finds_by_content n w0 m0 w1 cs m w k v m' w' k' :
  mapCreateStringMap char_is_signed mem free n w0 = (Some m0, w1) ->
  run_all cs (Some m0) w1 = (Some m, w) ->
  mapPut (Some m) k v w = (true, Some m', w') ->
  c_string (mem k') = c_string (mem k) ->
  k' <> NULL ->
  mapGet (Some m') k' = v /\ freeKey m' = free /\ freeValue m' = free.
Proof.
  intros Hc Hrun Hput Hkk' Hk'.
  apply Inv_create in Hc as (Hinv0 & _ & _ & _ & Hhash0 & Hcmp0 & Hfk0 & Hfv0).
  assert (key_contract (hash m0) (compare m0)) as Hkc0
    by (rewrite Hhash0, Hcmp0; apply string_contract).
  destruct (Inv_run_all _ _ _ _ _ Hinv0 Hkc0 Hrun)
    as (m1 & [= <-] & Hinv & Hsame).
  pose proof (key_contract_same _ _ Hsame Hkc0) as Hkc.
  pose proof (mapPut_outcome m k v w) as Ho. rewrite Hput in Ho.
  destruct (Inv_put _ _ _ _ _ Hinv Hkc Ho) as (m2 & [= <-] & Hinv' & Hsame').
  destruct (put_stores _ _ _ _ _ _ (inv_live _ Hinv) (cmp_refl _ _ Hkc k) Hput)
    as (e & He & Hke & Hv).
  destruct Hsame as (Hhash & Hcmp & Hfk & Hfv).
  destruct Hsame' as (Hhash' & Hcmp' & Hfk' & Hfv').
  simpl in Hfk0, Hfv0. split; [|split; congruence].
  rewrite <- Hv. apply stored_value_read; try done.
  - intros a b. rewrite Hhash', Hcmp'. apply Hkc.
  - unfold holds in *. rewrite Hcmp'.
    apply (cmp_trans _ _ Hkc _ k); [done|].
    rewrite Hcmp, Hcmp0. by apply strcmp_zero_iff.
Qed.

End StringFacts.

(** ** The demonstration program *)

Section StepFacts.
Context {W : Type} `{Allocator W}.
Implicit Types (m : @Map W) (k v : ptr) (e : MapEntry) (w : W).

Lemma put_fresh_full m k v w w' :
  Inv m -> key_contract (hash m) (compare m) -> k <> NULL ->
  Forall (fun e => ~ holds m k e) (entries m) ->
  alloc EntryBlock w = Some w' ->
  exists m',
    mapPut (Some m) k v w = (true, Some m', w') /\
    Inv m' /\ same_functions m m' /\
    entries m' ≡ₚ {| key := k; value := v |} :: entries m /\
    size m' = size_t_inc (size m) /\ capacity m' = capacity m.
Proof.
  intros Hinv Hkc Hk Habs Ha. pose proof (inv_live _ Hinv) as Hm.
  assert (Forall (fun e => ~ holds m k e) (bucket m (index m k))) as Hb.
  { rewrite (entries_split m k Hm) in Habs.
    apply Forall_app in Habs as [_ Habs]. by apply Forall_app in Habs as [Habs _]. }
  eexists. split; [|split; [|split; [|split]]].
  - unfold mapPut. destruct (N.eqb_spec k NULL); [done|].
    fold (index m k). by rewrite put_loop_miss, Ha.
  - by apply Inv_put_fresh.
  - by repeat split.
  - change (entries (set_size ?a _)) with (entries a).
    rewrite entries_set_bucket, (entries_split m k) by done.
    simpl. symmetry. apply Permutation_middle.
  - done.
Qed.

Lemma put_no_memory_eq m k v w :
  live m -> k <> NULL ->
  Forall (fun e => ~ holds m k e) (entries m) ->
  alloc EntryBlock w = None ->
  mapPut (Some m) k v w = (false, Some m, w).
Proof.
  intros Hm Hk Habs Ha.
  assert (Forall (fun e => ~ holds m k e) (bucket m (index m k))) as Hb.
  { rewrite (entries_split m k Hm) in Habs.
    apply Forall_app in Habs as [_ Habs]. by apply Forall_app in Habs as [Habs _]. }
  unfold mapPut. destruct (N.eqb_spec k NULL); [done|].
  fold (index m k). by rewrite put_loop_miss, Ha.
Qed.

Lemma remove_present_full m k w e :
  Inv m -> consistent m -> k <> NULL ->
  e ∈ entries m -> holds m k e ->
  exists m',
    mapRemove (Some m) k w =
      (true, Some m',
       release EntryBlock (freeValue m (value e) (freeKey m (key e) w))) /\
    Inv m' /\ same_functions m m' /\
    entries m ≡ₚ e :: entries m' /\
    size m' = size_t_dec (size m) /\ capacity m' = capacity m.
Proof.
  intros Hinv Hh Hk He Hke.
  destruct (present_in_bucket m k e Hinv Hh He Hke) as (c1 & c2 & Hb & Hc1 & _).
  pose proof (inv_live _ Hinv) as Hm.
  eexists. split; [|split; [|split; [|split]]].
  - unfold mapRemove. destruct (N.eqb_spec k NULL); [done|].
    fold (index m k). rewrite Hb. by rewrite remove_loop_hit.
  - by eapply Inv_remove_found.
  - by repeat split.
  - change (entries (set_size ?a _)) with (entries a).
    rewrite entries_set_bucket, (entries_split m k), Hb by done.
    rewrite <- !app_assoc. simpl. rewrite (app_assoc (before m k) c1).
    by rewrite <- Permutation_middle, <- app_assoc.
  - done.
Qed.

(** With hooks that do nothing, clearing frees one block per entry. *)
Lemma free_chain_noFree m (c : list MapEntry) w :
  freeKey m = noFree -> freeValue m = noFree ->
  free_chain m c w = Nat.iter (length c) (release EntryBlock) w.
Proof.
  intros Hfk Hfv. revert w. induction c as [|e c IH]; intros w; [done|].
  simpl free_chain. rewrite IH, Hfk, Hfv. unfold noFree. simpl length.
  by rewrite Nat.iter_succ_r.
Qed.

Lemma clear_noFree m w :
  live m -> freeKey m = noFree -> freeValue m = noFree ->
  exists m',
    mapClear (Some m) w =
      (Some m', Nat.iter (length (entries m)) (release EntryBlock) w) /\
    live m' /\ same_functions m m' /\ entries m' = [] /\
    size m' = 0 /\ capacity m' = capacity m.
Proof.
  intros Hm Hfk Hfv. rewrite mapClear_live by done. eexists. split.
  - f_equal. unfold entries. generalize (buckets m). intros bs. revert w.
    induction bs as [|c bs IH]; intros w; [done|].
    simpl. rewrite IH, free_chain_noFree, length_app by done.
    by rewrite Nat.add_comm, Nat.iter_add.
  - destruct Hm as [? Hlen]. repeat split; simpl; try done.
    + by rewrite length_replicate.
    + unfold entries. simpl. apply concat_replicate_nil.
Qed.

Lemma destroy_noFree m w :
  live m -> freeKey m = noFree -> freeValue m = noFree ->
  mapDestroy (Some m) w =
    release MapBlock
      (release (BucketsBlock (capacity m))
         (Nat.iter (length (entries m)) (release EntryBlock) w)).
Proof.
  intros Hm Hfk Hfv. unfold mapDestroy.
  destruct (clear_noFree m w Hm Hfk Hfv) as (m' & -> & _). done.
Qed.

End StepFacts.

Section ProgramFacts.
Variable char_is_signed : bool.
Variable mem : ptr -> list Byte.byte.
Context {W : Type} `{Allocator W}.
Variable printf : String.string -> list N -> W -> W.
Variables key1_put value1 key2_put value2 key1_get key2_contains key1_remove : ptr.

#[local] Open Scope string_scope.
#[local] Arguments mapCreate : simpl never.
#[local] Arguments mapPut : simpl never.
#[local] Arguments mapGet : simpl never.
#[local] Arguments mapContains : simpl never.
#[local] Arguments mapRemove : simpl never.
#[local] Arguments mapClear : simpl never.
#[local] Arguments mapDestroy : simpl never.
#[local] Arguments mapSize : simpl never.

Hypothesis lit_key1_put : literal mem key1_put "key1".
Hypothesis lit_value1 : literal mem value1 "value1".
Hypothesis lit_key2_put : literal mem key2_put "key2".
Hypothesis lit_value2 : literal mem value2 "value2".
Hypothesis lit_key1_get : literal mem key1_get "key1".
Hypothesis lit_key2_contains : literal mem key2_contains "key2".
Hypothesis lit_key1_remove : literal mem key1_remove "key1".

#[local] Abbreviation the_main :=
  (main char_is_signed mem printf
        key1_put value1 key2_put value2 key1_get key2_contains key1_remove).

(** The state of [main] after the table is created and the two puts have
    succeeded. *)
Lemma main_two_puts w w1 w2 w3 w4 :
  alloc MapBlock w = Some w1 ->
  alloc (BucketsBlock 10) w1 = Some w2 ->
  alloc EntryBlock w2 = Some w3 ->
  alloc EntryBlock w3 = Some w4 ->
  exists m0 m1 m2,
    mapCreate 10 (stringHash char_is_signed mem) (stringCompare mem) None None w
      = (Some m0, w2) /\
    mapPut (Some m0) key1_put value1 w2 = (true, Some m1, w3) /\
    mapPut (Some m1) key2_put value2 w3 = (true, Some m2, w4) /\
    Inv m0 /\ Inv m1 /\ Inv m2 /\
    entries m0 = [] /\
    entries m1 ≡ₚ [ {| key := key1_put; value := value1 |} ] /\
    entries m2 ≡ₚ [ {| key := key2_put; value := value2 |};
                    {| key := key1_put; value := value1 |} ] /\
    capacity m0 = 10 /\ capacity m1 = 10 /\ capacity m2 = 10 /\
    size m2 = 2 /\
    same_functions m0 m1 /\ same_functions m0 m2 /\
    hash m0 = stringHash char_is_signed mem /\ compare m0 = stringCompare mem /\
    freeKey m0 = noFree /\ freeValue m0 = noFree.
Proof.
  intros Ha1 Ha2 Ha3 Ha4.
  destruct lit_key1_put as [Hk1 Ht1]. destruct lit_key2_put as [Hk2 Ht2].
  assert (exists m0, mapCreate 10 (stringHash char_is_signed mem) (stringCompare mem)
                       None None w = (Some m0, w2)) as [m0 Hc].
  { unfold mapCreate. simpl. rewrite Ha1, Ha2. eauto. }
  destruct (Inv_create _ _ _ _ _ _ _ _ Hc)
    as (Hinv0 & Hnil0 & Hcap0 & Hsz0 & Hhash0 & Hcmp0 & Hfk0 & Hfv0).
  simpl in Hfk0, Hfv0.
  assert (key_contract (hash m0) (compare m0)) as Hkc0
    by (rewrite Hhash0, Hcmp0; apply string_contract).
  destruct (put_fresh_full m0 key1_put value1 w2 w3 Hinv0 Hkc0 Hk1)
    as (m1 & Hput1 & Hinv1 & Hsame1 & Hperm1 & Hsz1 & Hcap1); [by rewrite Hnil0|done|].
  rewrite Hnil0 in Hperm1.
  pose proof (key_contract_same _ _ Hsame1 Hkc0) as Hkc1.
  destruct (put_fresh_full m1 key2_put value2 w3 w4 Hinv1 Hkc1 Hk2)
    as (m2 & Hput2 & Hinv2 & Hsame2 & Hperm2 & Hsz2 & Hcap2); [|done|].
  { rewrite Hperm1. constructor; [|done]. unfold holds. simpl.
    destruct Hsame1 as (_ & -> & _). rewrite Hcmp0.
    unfold stringCompare. rewrite strcmp_zero_iff, Ht1, Ht2. done. }
  rewrite Hperm1 in Hperm2.
  assert (size m2 = 2) as Hs2 by (rewrite Hsz2, Hsz1, Hsz0; reflexivity).
  pose proof (same_functions_trans _ _ _ Hsame1 Hsame2) as Hsame02.
  exists m0, m1, m2.
  do 12 (split; [done || congruence|]). do 3 (split; [done|]).
  by repeat split.
Qed.

Lemma main_success w w1 w2 w3 w4 :
  alloc MapBlock w = Some w1 ->
  alloc (BucketsBlock 10) w1 = Some w2 ->
  alloc EntryBlock w2 = Some w3 ->
  alloc EntryBlock w3 = Some w4 ->
  the_main w =
    (0%Z,
     release MapBlock
       (release (BucketsBlock 10)
          (printf "Map cleared, size: %zu\n" [0]
             (release EntryBlock
                (printf "Map size: %zu\n" [1]
                   (printf "Removed key1\n" []
                      (release EntryBlock
                         (printf "Map contains key2\n" []
                            (printf "Got value for key1: %s\n" [value1] w4))))))))).
Proof.
  intros Ha1 Ha2 Ha3 Ha4.
  destruct (main_two_puts w w1 w2 w3 w4 Ha1 Ha2 Ha3 Ha4)
    as (m0 & m1 & m2 & Hc & Hput1 & Hput2 & Hinv0 & Hinv1 & Hinv2 & Hnil0 &
        Hperm1 & Hperm2 & Hcap0 & Hcap1 & Hcap2 & Hsz2 & Hsame1 & Hsame2 &
        Hhash0 & Hcmp0 & Hfk0 & Hfv0).
  destruct Hsame2 as (Hhash2 & Hcmp2 & Hfk2 & Hfv2).
  destruct lit_key1_put as [_ Ht1]. destruct lit_key2_put as [_ Ht2].
  destruct lit_key1_get as [Hg1 Htg1]. destruct lit_key2_contains as [Hg2 Htg2].
  destruct lit_key1_remove as [Hr1 Htr1].
  destruct lit_value1 as [Hv1 _]. destruct lit_value2 as [Hv2 _].
  assert (consistent m2) as Hcons2.
  { intros a b. rewrite Hhash2, Hcmp2, Hhash0, Hcmp0. apply string_contract. }
  set (e1 := {| key := key1_put; value := value1 |}) in *.
  set (e2 := {| key := key2_put; value := value2 |}) in *.
  assert (e1 ∈ entries m2) as He1
    by (rewrite Hperm2; apply elem_of_cons; right; apply elem_of_cons; by left).
  assert (e2 ∈ entries m2) as He2
    by (rewrite Hperm2; apply elem_of_cons; by left).
  assert (forall k, c_string (mem k) = c_string (mem key1_put) -> holds m2 k e1)
    as Hholds1.
  { intros k Hk. unfold holds. rewrite Hcmp2, Hcmp0. simpl.
    unfold stringCompare. by rewrite strcmp_zero_iff. }
  assert (forall k, c_string (mem k) = c_string (mem key2_put) -> holds m2 k e2)
    as Hholds2.
  { intros k Hk. unfold holds. rewrite Hcmp2, Hcmp0. simpl.
    unfold stringCompare. by rewrite strcmp_zero_iff. }
  assert (mapGet (Some m2) key1_get = value1) as Hget.
  { apply (stored_value_read m2 key1_get e1); try done.
    apply Hholds1. congruence. }
  assert (mapContains (Some m2) key2_contains = true) as Hcont.
  { unfold mapContains.
    rewrite (stored_value_read m2 key2_contains e2); try done.
    - simpl. by destruct (N.eqb_spec value2 NULL).
    - apply Hholds2. congruence. }
  destruct (remove_present_full m2 key1_remove
              (printf "Map contains key2\n" []
                 (printf "Got value for key1: %s\n" [value1] w4)) e1)
    as (m3 & Hrem & Hinv3 & Hsame3 & Hperm3 & Hsz3 & Hcap3); try done.
  { apply Hholds1. congruence. }
  rewrite Hfk2, Hfv2, Hfk0, Hfv0 in Hrem. unfold noFree in Hrem.
  destruct Hsame3 as (_ & _ & Hfk3 & Hfv3).
  assert (length (entries m3) = 1%nat) as Hlen3.
  { apply Permutation_length in Hperm2, Hperm3. simpl in *. lia. }
  assert (mapSize (Some m3) = 1) as Hsize3.
  { unfold mapSize. rewrite Hsz3, Hsz2. reflexivity. }
  destruct (clear_noFree m3
              (printf "Map size: %zu\n" [1]
                 (printf "Removed key1\n" []
                    (release EntryBlock
                       (printf "Map contains key2\n" []
                          (printf "Got value for key1: %s\n" [value1] w4))))))
    as (m4 & Hclear & Hm4 & Hsame4 & Hnil4 & Hsz4 & Hcap4);
    [apply Hinv3 | congruence | congruence |].
  rewrite Hlen3 in Hclear. simpl in Hclear.
  destruct Hsame4 as (_ & _ & Hfk4 & Hfv4).
  unfold main. rewrite Hc, Hput1. simpl. rewrite Hput2. simpl.
  rewrite Hget, Hcont.
  destruct (N.eqb_spec value1 NULL) as [|_]; [done|]. simpl.
  rewrite Hrem, Hsize3, Hclear.
  rewrite destroy_noFree by (done || congruence).
  rewrite Hnil4. simpl. unfold mapSize. rewrite Hsz4. congruence.
Qed.

(** X20. The demonstration program, when its four allocations succeed
    (the table, the bucket array and one entry per put): it returns 0 and
    prints, in this order, the value found under key1, that key2 is
    contained, that key1 was removed, the size 1 and, after the clear, the
    size 0; the entry of key1 is freed by the remove, that of key2 by the
    clear, the bucket array and the table by the destroy. The lookups and
    the remove go through other occurrences of the literals than the puts:
    they succeed because keys are compared by their characters. *)
Theorem main_prints_and_returns_zero w w1 w2 w3 w4 :
  alloc MapBlock w = Some w1 ->
  alloc (BucketsBlock 10) w1 = Some w2 ->
  alloc EntryBlock w2 = Some w3 ->
  alloc EntryBlock w3 = Some w4 ->
  main char_is_signed mem printf key1_put value1 key2_put value2
       key1_get key2_contains key1_remove w =
    (0%Z,
     release MapBlock
       (release (BucketsBlock 10)
          (printf "Map cleared, size: %zu\n" [0]
             (release EntryBlock
                (printf "Map size: %zu\n" [1]
                   (printf "Removed key1\n" []
                      (release EntryBlock
                         (printf "Map contains key2\n" []
                            (printf "Got value for key1: %s\n" [value1] w4))))))))).
Proof. apply main_success. Qed.

Lemma main_first_put w w1 w2 w3 :
  alloc MapBlock w = Some w1 ->
  alloc (BucketsBlock 10) w1 = Some w2 ->
  alloc EntryBlock w2 = Some w3 ->
  exists m0 m1,
    mapCreate 10 (stringHash char_is_signed mem) (stringCompare mem) None None w
      = (Some m0, w2) /\
    mapPut (Some m0) key1_put value1 w2 = (true, Some m1, w3) /\
    Inv m1 /\ length (entries m1) = 1%nat /\ capacity m1 = 10 /\
    freeKey m1 = noFree /\ freeValue m1 = noFree /\
    Forall (fun e => ~ holds m1 key2_put e) (entries m1).
Proof.
  intros Ha1 Ha2 Ha3.
  destruct lit_key1_put as [Hk1 Ht1]. destruct lit_key2_put as [Hk2 Ht2].
  assert (exists m0, mapCreate 10 (stringHash char_is_signed mem) (stringCompare mem)
                       None None w = (Some m0, w2)) as [m0 Hc].
  { unfold mapCreate. simpl. rewrite Ha1, Ha2. eauto. }
  destruct (Inv_create _ _ _ _ _ _ _ _ Hc)
    as (Hinv0 & Hnil0 & Hcap0 & Hsz0 & Hhash0 & Hcmp0 & Hfk0 & Hfv0).
  simpl in Hfk0, Hfv0.
  assert (key_contract (hash m0) (compare m0)) as Hkc0
    by (rewrite Hhash0, Hcmp0; apply string_contract).
  destruct (put_fresh_full m0 key1_put value1 w2 w3 Hinv0 Hkc0 Hk1)
    as (m1 & Hput1 & Hinv1 & Hsame1 & Hperm1 & Hsz1 & Hcap1); [by rewrite Hnil0|done|].
  rewrite Hnil0 in Hperm1. destruct Hsame1 as (Hh1 & Hc1 & Hfk1 & Hfv1).
  exists m0, m1. do 3 (split; [done|]).
  split; [by rewrite Hperm1|]. do 3 (split; [congruence|]).
  rewrite Hperm1. constructor; [|done]. unfold holds. simpl.
  rewrite Hc1, Hcmp0. unfold stringCompare. rewrite strcmp_zero_iff, Ht1, Ht2. done.
Qed.

(** A count of the blocks outstanding, as for the table alone; printing
    does not allocate. *)
Variable blocks : W -> Z.
Hypothesis blocks_alloc :
  forall b w w', alloc b w = Some w' -> blocks w' = (blocks w + 1)%Z.
Hypothesis blocks_release :
  forall b w, blocks (release b w) = (blocks w - 1)%Z.
Hypothesis blocks_printf :
  forall fmt args w, blocks (printf fmt args w) = blocks w.

(** X21. The demonstration program returns 0 when its four allocations
    succeed and -1 as soon as one fails, and in every case it ends with no
    block outstanding: on each failure path what was allocated so far is
    released before returning. *)
Theorem main_exit_code_and_cleanup w :
  ((main char_is_signed mem printf key1_put value1 key2_put value2
         key1_get key2_contains key1_remove w).1 = 0%Z \/
   (main char_is_signed mem printf key1_put value1 key2_put value2
         key1_get key2_contains key1_remove w).1 = (-1)%Z) /\
  ((main char_is_signed mem printf key1_put value1 key2_put value2
         key1_get key2_contains key1_remove w).1 = 0%Z <->
     exists w1 w2 w3 w4,
       alloc MapBlock w = Some w1 /\ alloc (BucketsBlock 10) w1 = Some w2 /\
       alloc EntryBlock w2 = Some w3 /\ alloc EntryBlock w3 = Some w4) /\
  blocks (main char_is_signed mem printf key1_put value1 key2_put value2
               key1_get key2_contains key1_remove w).2 = blocks w.
Proof.
  destruct lit_key1_put as [Hk1 _]. destruct lit_key2_put as [Hk2 _].
  destruct (alloc MapBlock w) as [w1|] eqn:Ha1.
  2: { assert (the_main w = ((-1)%Z, printf "Failed to create map\n" [] w)) as ->.
       { unfold main, mapCreate. simpl. by rewrite Ha1. }
       simpl. split; [by right|]. split; [|apply blocks_printf].
       split; [done|]. by intros (? & ? & ? & ? & ? & _). }
  destruct (alloc (BucketsBlock 10) w1) as [w2|] eqn:Ha2.
  2: { assert (the_main w =
                 ((-1)%Z, printf "Failed to create map\n" [] (release MapBlock w1)))
         as ->.
       { unfold main, mapCreate. simpl. by rewrite Ha1, Ha2. }
       simpl. split; [by right|]. split.
       - split; [done|]. intros (? & ? & ? & ? & [= <-] & ? & _). congruence.
       - rewrite blocks_printf, blocks_release, (blocks_alloc _ _ _ Ha1). lia. }
  destruct (alloc EntryBlock w2) as [w3|] eqn:Ha3.
  2: { assert (exists m0, mapCreate 10 (stringHash char_is_signed mem)
                           (stringCompare mem) None None w = (Some m0, w2))
         as [m0 Hc].
       { unfold mapCreate. simpl. rewrite Ha1, Ha2. eauto. }
       destruct (Inv_create _ _ _ _ _ _ _ _ Hc)
         as (Hinv0 & Hnil0 & Hcap0 & _ & _ & _ & Hfk0 & Hfv0).
       simpl in Hfk0, Hfv0.
       assert (the_main w =
                 ((-1)%Z, mapDestroy (Some m0) (printf "Failed to put key1\n" [] w2)))
         as ->.
       { unfold main. rewrite Hc.
         rewrite (put_no_memory_eq m0 key1_put value1 w2); try done.
         - apply Hinv0.
         - by rewrite Hnil0. }
       simpl. split; [by right|]. split.
       - split; [done|].
         intros (? & ? & ? & ? & [= <-] & ? & ? & _). congruence.
       - rewrite destroy_noFree by (done || apply Hinv0).
         rewrite Hnil0. simpl.
         rewrite !blocks_release, blocks_printf,
           (blocks_alloc _ _ _ Ha2), (blocks_alloc _ _ _ Ha1). lia. }
  destruct (main_first_put w w1 w2 w3 Ha1 Ha2 Ha3)
    as (m0 & m1 & Hc & Hput1 & Hinv1 & Hlen1 & Hcap1 & Hfk1 & Hfv1 & Habs).
  destruct (alloc EntryBlock w3) as [w4|] eqn:Ha4.
  - rewrite (main_success w w1 w2 w3 w4) by done. simpl.
    split; [by left|]. split.
    + split; [|done]. intros _. by exists w1, w2, w3, w4.
    + repeat (rewrite blocks_release || rewrite blocks_printf).
      rewrite (blocks_alloc _ _ _ Ha4), (blocks_alloc _ _ _ Ha3),
        (blocks_alloc _ _ _ Ha2), (blocks_alloc _ _ _ Ha1). lia.
  - assert (the_main w =
              ((-1)%Z, mapDestroy (Some m1) (printf "Failed to put key2\n" [] w3)))
      as ->.
    { unfold main. rewrite Hc, Hput1. simpl.
      rewrite (put_no_memory_eq m1 key2_put value2 w3); try done.
      apply Hinv1. }
    simpl. split; [by right|]. split.
    + split; [done|].
      intros (? & ? & ? & ? & [= <-] & ? & ? & ?). congruence.
    + rewrite destroy_noFree by (done || apply Hinv1).
      rewrite Hlen1, Hcap1. simpl.
      rewrite !blocks_release, blocks_printf,
        (blocks_alloc _ _ _ Ha3), (blocks_alloc _ _ _ Ha2),
        (blocks_alloc _ _ _ Ha1). lia.
Qed.

End ProgramFacts.

(** ** The further properties at concrete inputs *)

(** X5 at: a put under key 5, which the table of three entries does not
    hold; it cannot fail in a world where allocation succeeds. *)
Lemma put_fails_iff_witness :
  Inv Demo.three /\ consistent Demo.three /\
  (mapPut (Some Demo.three) 5 50 []).1.1 = true.
Proof.
  split; [exact three_Inv|]. split; [exact three_consistent|].
  pose proof (put_fails_iff Demo.three 5 50 [] three_Inv three_consistent) as Hw.
  destruct (mapPut (Some Demo.three) 5 50 []).1.1; [reflexivity|].
  destruct (proj1 Hw eq_refl) as [Hk | [_ Ha]]; discriminate.
Defined.

(** X6 at: key 5 stored in the table of three entries. *)
Lemma put_absent_key_witness :
  live Demo.three /\ 5 <> NULL /\
  Forall (fun e => ~ holds Demo.three 5 e) (entries Demo.three) /\
  alloc EntryBlock [] = Some [Demo.Allocated EntryBlock] /\
  exists m',
    mapPut (Some Demo.three) 5 50 [] = (true, Some m', [Demo.Allocated EntryBlock]) /\
    size m' = 4 /\ capacity m' = 2.
Proof.
  assert (5 <> NULL) as Hk by discriminate.
  assert (Forall (fun e => ~ holds Demo.three 5 e) (entries Demo.three)) as Habs
    by (repeat constructor; discriminate).
  assert (alloc EntryBlock [] = Some [Demo.Allocated EntryBlock]) as Ha
    by reflexivity.
  split; [exact (inv_live _ three_Inv)|]. split; [exact Hk|].
  split; [exact Habs|]. split; [exact Ha|].
  destruct (put_absent_key Demo.three 5 50 [] _ (inv_live _ three_Inv) Hk Habs Ha)
    as (m' & Hput & _ & _ & _ & Hsize & Hcap).
  exists m'. split; [exact Hput|]. split; [exact Hsize | exact Hcap].
Defined.

(** X8 at: the table of three entries in two buckets, asked for 1 bucket
    (refused: the capacity stays 2) and for 5 buckets (granted: the capacity
    is 5); and a put into the table of one entry (the capacity stays 2). *)
Lemma capacity_changes_only_by_resize_witness :
  (run (Resize 1) (Some Demo.three) [] = (Some Demo.three, []) /\
   (mapResize (Some Demo.three) 1 []).1.1 = false /\
   capacity Demo.three = 2) /\
  (exists m' w',
     run (Resize 5) (Some Demo.three) [] = (Some m', w') /\
     (mapResize (Some Demo.three) 5 []).1.1 = true /\
     capacity m' = 5) /\
  (exists m' w',
     run (Put 3 30) (Some Demo.one) [] = (Some m', w') /\
     capacity m' = 2).
Proof.
  split; [|split].
  - assert (run (Resize 1) (Some Demo.three) [] = (Some Demo.three, []))
      as Hrun by reflexivity.
    assert ((mapResize (Some Demo.three) 1 []).1.1 = false) as Hno by reflexivity.
    split; [exact Hrun|]. split; [exact Hno|].
    pose proof (capacity_changes_only_by_resize _ _ _ _ _ Hrun) as H.
    cbv beta iota in H. rewrite Hno in H. exact (proj1 H).
  - assert (exists m' w', run (Resize 5) (Some Demo.three) [] = (Some m', w'))
      as (m' & w' & Hrun) by (eexists _, _; reflexivity).
    assert ((mapResize (Some Demo.three) 5 []).1.1 = true) as Hok by reflexivity.
    exists m', w'. split; [exact Hrun|]. split; [exact Hok|].
    pose proof (capacity_changes_only_by_resize _ _ _ _ _ Hrun) as H.
    cbv beta iota in H. rewrite Hok in H. exact (proj1 H).
  - assert (exists m' w', run (Put 3 30) (Some Demo.one) [] = (Some m', w'))
      as (m' & w' & Hrun) by (eexists _, _; reflexivity).
    exists m', w'. split; [exact Hrun|].
    exact (capacity_changes_only_by_resize _ _ _ _ _ Hrun).
Defined.

(** X9 at: key 3 in the table of three entries. *)
Lemma lookup_reads_the_entry_witness :
  Inv Demo.three /\ consistent Demo.three /\ 3 <> NULL /\
  (mapContains (Some Demo.three) 3 = true <->
   exists e, e ∈ entries Demo.three /\ holds Demo.three 3 e /\ value e <> NULL).
Proof.
  assert (3 <> NULL) as Hk by discriminate.
  split; [exact three_Inv|]. split; [exact three_consistent|]. split; [exact Hk|].
  exact (proj2 (proj2 (lookup_reads_the_entry Demo.three 3
                         three_Inv three_consistent Hk))).
Defined.

(** X10 at: key 3 removed from the table of three entries, seen from
    key 1, which shares its bucket. *)
Lemma other_keys_untouched_witness :
  Inv Demo.three /\ key_contract (hash Demo.three) (compare Demo.three) /\
  leaves (compare Demo.three) 1 (Remove 3) /\
  mapGet (run (Remove 3) (Some Demo.three) []).1 1 = mapGet (Some Demo.three) 1.
Proof.
  assert (leaves (compare Demo.three) 1 (Remove 3)) as Hl by (simpl; discriminate).
  split; [exact three_Inv|]. split; [exact addr_contract|]. split; [exact Hl|].
  exact (proj1 (other_keys_untouched Demo.three 1 (Remove 3) [] _ _
                  three_Inv addr_contract Hl (surjective_pairing _))).
Defined.

(** X11 at: key 1 removed from the table of three entries. *)
Lemma removed_key_is_absent_witness :
  Inv Demo.three /\ key_contract (hash Demo.three) (compare Demo.three) /\
  (mapRemove (Some Demo.three) 1 []).1.1 = true /\
  compare Demo.three 1 1 = 0%Z /\
  forall m', (mapRemove (Some Demo.three) 1 []).1.2 = Some m' ->
    mapGet (Some m') 1 = NULL.
Proof.
  assert (compare Demo.three 1 1 = 0%Z) as Hkk by reflexivity.
  split; [exact three_Inv|]. split; [exact addr_contract|].
  split; [reflexivity|]. split; [exact Hkk|]. intros m' Hm'.
  assert (mapRemove (Some Demo.three) 1 [] =
          (true, Some m', (mapRemove (Some Demo.three) 1 []).2)) as Hrem
    by (rewrite <- Hm'; reflexivity).
  exact (proj1 (removed_key_is_absent Demo.three 1 [] m' _ 1
                  three_Inv addr_contract Hrem Hkk)).
Defined.

(** X12 and X13 at: the table of three entries. *)
Lemma reachable_size_and_unique_keys_witness :
  reachable Demo.three /\ key_contract (hash Demo.three) (compare Demo.three) /\
  mapSize (Some Demo.three) = to_size_t (N.of_nat (length (entries Demo.three))).
Proof.
  split; [exact three_reachable|]. split; [exact addr_contract|].
  exact (proj1 (reachable_size_and_unique_keys Demo.three
                  three_reachable addr_contract)).
Defined.

Lemma reachable_keys_not_null_witness :
  reachable Demo.three /\ Forall (fun e => key e <> NULL) (entries Demo.three).
Proof.
  split; [exact three_reachable|].
  exact (reachable_keys_not_null Demo.three three_reachable).
Defined.

Lemma outstanding_alloc (b : block) (w w' : list Demo.event) :
  alloc b w = Some w' -> outstanding w' = (outstanding w + 1)%Z.
Proof. by intros [= <-]. Qed.

Lemma outstanding_release (b : block) (w : list Demo.event) :
  outstanding (release b w) = (outstanding w - 1)%Z.
Proof. done. Qed.

Lemma outstanding_hooks f :
  Some Demo.logKey = Some f \/ Some Demo.logValue = Some f ->
  forall p (w : list Demo.event), outstanding (f p w) = outstanding w.
Proof. by intros [[= <-] | [= <-]]. Qed.

(** X14 at: the three puts that build the table of three entries. *)
Lemma blocks_held_are_entries_plus_two_witness :
  (forall b (w w' : list Demo.event),
     alloc b w = Some w' -> outstanding w' = (outstanding w + 1)%Z) /\
  (forall b (w : list Demo.event),
     outstanding (release b w) = (outstanding w - 1)%Z) /\
  outstanding
    [Demo.Allocated EntryBlock; Demo.Allocated EntryBlock; Demo.Allocated EntryBlock;
     Demo.Allocated (BucketsBlock 2); Demo.Allocated MapBlock] = 5%Z.
Proof.
  split; [exact outstanding_alloc|]. split; [exact outstanding_release|].
  assert (run_all [Put 1 10; Put 3 30; Put 4 40] (Some Demo.fresh)
            [Demo.Allocated (BucketsBlock 2); Demo.Allocated MapBlock] =
          (Some Demo.three,
           [Demo.Allocated EntryBlock; Demo.Allocated EntryBlock;
            Demo.Allocated EntryBlock;
            Demo.Allocated (BucketsBlock 2); Demo.Allocated MapBlock])) as Hrun
    by reflexivity.
  exact (blocks_held_are_entries_plus_two outstanding
           outstanding_alloc outstanding_release
           2 Demo.addrHash Demo.addrCompare (Some Demo.logKey) (Some Demo.logValue)
           [] Demo.fresh _ [Put 1 10; Put 3 30; Put 4 40] Demo.three _
           outstanding_hooks fresh_created Hrun).
Defined.


#[local] Open Scope string_scope.

(** The literals of the console memory. *)
Lemma console_literals :
  literal Console.memory 1 "key1" /\ literal Console.memory 2 "value1" /\
  literal Console.memory 3 "key2" /\ literal Console.memory 4 "value2" /\
  literal Console.memory 5 "key1" /\ literal Console.memory 6 "key2" /\
  literal Console.memory 7 "key1".
Proof. by repeat split. Qed.

(** X19 at: a string map of 4 buckets; a value stored under the literal at
    address 1 is read through the literal at address 5. *)
Lemma string_map_finds_by_content_witness :
  exists m0 w1 m' w',
    mapCreateStringMap true Console.memory Console.free 4 Console.start
      = (Some m0, w1) /\
    run_all [] (Some m0) w1 = (Some m0, w1) /\
    mapPut (Some m0) 1 2 w1 = (true, Some m', w') /\
    c_string (Console.memory 5) = c_string (Console.memory 1) /\
    5 <> NULL /\
    mapGet (Some m') 5 = 2.
Proof.
  destruct (mapCreateStringMap true Console.memory Console.free 4 Console.start)
    as [[m0|] w1] eqn:Hc; [|discriminate].
  assert (run_all [] (Some m0) w1 = (Some m0, w1)) as Hrun by reflexivity.
  assert (c_string (Console.memory 5) = c_string (Console.memory 1)) as Hsame
    by reflexivity.
  assert (5 <> NULL) as Hk by discriminate.
  assert (exists m' w', mapPut (Some m0) 1 2 w1 = (true, Some m', w'))
    as (m' & w' & Hput).
  { injection Hc as <- <-. by eexists _, _. }
  exists m0, w1, m', w'. do 5 (split; [done|]).
  exact (proj1 (string_map_finds_by_content true Console.memory Console.free
                  4 Console.start m0 w1 [] m0 w1 1 2 m' w' 5
                  Hc Hrun Hput Hsame Hk)).
Defined.

(** X20 at: the console memory and a world where allocation succeeds. *)
Lemma main_prints_and_returns_zero_witness :
  (main true Console.memory Console.printf 1 2 3 4 5 6 7 Console.start).1 = 0%Z /\
  (main true Console.memory Console.printf 1 2 3 4 5 6 7 Console.start).2.2 =
    [ ("Map cleared, size: %zu\n", [0%N]);
      ("Map size: %zu\n", [1%N]);
      ("Removed key1\n", []);
      ("Map contains key2\n", []);
      ("Got value for key1: %s\n", [2%N]) ].
Proof.
  destruct console_literals as (L1 & L2 & L3 & L4 & L5 & L6 & L7).
  set (w1 := ([Demo.Allocated MapBlock], []) : Console.world).
  set (w2 := ([Demo.Allocated (BucketsBlock 10); Demo.Allocated MapBlock], [])
             : Console.world).
  set (w3 := (Demo.Allocated EntryBlock :: w2.1, []) : Console.world).
  set (w4 := (Demo.Allocated EntryBlock :: w3.1, []) : Console.world).
  assert (alloc MapBlock Console.start = Some w1) as H1 by reflexivity.
  assert (alloc (BucketsBlock 10) w1 = Some w2) as H2 by reflexivity.
  assert (alloc EntryBlock w2 = Some w3) as H3 by reflexivity.
  assert (alloc EntryBlock w3 = Some w4) as H4 by reflexivity.
  rewrite (main_prints_and_returns_zero true Console.memory Console.printf
             1 2 3 4 5 6 7 L1 L2 L3 L4 L5 L6 L7 Console.start
             w1 w2 w3 w4 H1 H2 H3 H4).
  by split.
Defined.

Lemma console_alloc (b : block) (w w' : Console.world) :
  alloc b w = Some w' -> outstanding w'.1 = (outstanding w.1 + 1)%Z.
Proof. by intros [= <-]. Qed.

(** X21 at: the same run, with the log's count of outstanding blocks. *)
Lemma main_exit_code_and_cleanup_witness :
  outstanding
    (main true Console.memory Console.printf 1 2 3 4 5 6 7 Console.start).2.1
  = 0%Z.
Proof.
  destruct console_literals as (L1 & L2 & L3 & L4 & L5 & L6 & L7).
  pose proof (main_exit_code_and_cleanup true Console.memory Console.printf
                1 2 3 4 5 6 7 L1 L2 L3 L4 L5 L6 L7
                (fun w : Console.world => outstanding w.1)
                console_alloc (fun b w => eq_refl) (fun fmt args w => eq_refl)
                Console.start) as Hw.
  exact (proj2 (proj2 Hw)).
Defined.

(** X22 at: key 5 stored in the table of three entries, then removed. *)
Lemma put_then_remove_restores_witness :
  Inv Demo.three /\ compare Demo.three 5 5 = 0%Z /\ 5 <> NULL /\
  Forall (fun e => ~ holds Demo.three 5 e) (entries Demo.three) /\
  alloc EntryBlock [] = Some [Demo.Allocated EntryBlock] /\
  exists m',
    mapPut (Some Demo.three) 5 50 [] = (true, Some m', [Demo.Allocated EntryBlock]) /\
    mapRemove (Some m') 5 [Demo.Allocated EntryBlock] =
      (true, Some Demo.three,
       [Demo.Released EntryBlock; Demo.ValueFreed 50; Demo.KeyFreed 5;
        Demo.Allocated EntryBlock]).
Proof.
  assert (compare Demo.three 5 5 = 0%Z) as Hrefl by reflexivity.
  assert (5 <> NULL) as Hk by discriminate.
  assert (Forall (fun e => ~ holds Demo.three 5 e) (entries Demo.three)) as Habs
    by (repeat constructor; discriminate).
  assert (alloc EntryBlock [] = Some [Demo.Allocated EntryBlock]) as Ha
    by reflexivity.
  split; [exact three_Inv|]. split; [exact Hrefl|]. split; [exact Hk|].
  split; [exact Habs|]. split; [exact Ha|].
  exact (put_then_remove_restores Demo.three 5 50 [] _ three_Inv Hrefl Hk Habs Ha).
Defined.
